(** * update_csv.py: allergen flags and translation cleanup over CSV rows

    A shallow embedding of [src/update_csv.py] and the properties of its
    functions.  Python [str] values are lists of Unicode code points, the
    regular expressions of the script are built from three matchers
    (a literal, a word-bounded alternation and a whitespace run), and the
    row loop of [process_csv] runs in a small state-and-exception monad
    over the counters and the output table. *)

From Stdlib Require Import String Ascii DecimalString.
From Stdlib Require Import List NArith ZArith Bool Lia Arith Permutation.
Import ListNotations.

(** ** Strings *)

(** A Python [str] is a sequence of code points. *)
Definition char := N.
Definition str := list char.

Module Utf8.

(** Literals are written as UTF-8 text and decoded to code points. *)
Fixpoint bytes (s : string) : list N :=
  match s with
  | EmptyString => []
  | String a s' => N_of_ascii a :: bytes s'
  end.

Fixpoint go (need : nat) (acc : N) (bs : list N) : str :=
  match bs with
  | [] => []
  | b :: bs' =>
    match need with
    | O =>
      if (b <? 128)%N then b :: go 0 0 bs'
      else if (b <? 224)%N then go 1 (N.land b 31) bs'
      else if (b <? 240)%N then go 2 (N.land b 15) bs'
      else go 3 (N.land b 7) bs'
    | S k =>
      let acc' := (acc * 64 + N.land b 63)%N in
      match k with
      | O => acc' :: go 0 0 bs'
      | S _ => go k acc' bs'
      end
    end
  end.

Definition decode (s : string) : str := go 0 0 (bytes s).

End Utf8.

Definition u : string -> str := Utf8.decode.

(** ** Character tables *)

(** Whitespace of [\s] and [str.strip()]: the 29 code points for which
    [Py_UNICODE_ISSPACE] holds. *)
Definition is_space (c : char) : bool :=
  ((9 <=? c) && (c <=? 13) || (28 <=? c) && (c <=? 32)
   || (c =? 133) || (c =? 160) || (c =? 5760)
   || (8192 <=? c) && (c <=? 8202)
   || (c =? 8232) || (c =? 8233) || (c =? 8239) || (c =? 8287)
   || (c =? 12288))%N.

Definition ascii_upper (c : char) : bool := ((65 <=? c) && (c <=? 90))%N.
Definition ascii_lower (c : char) : bool := ((97 <=? c) && (c <=? 122))%N.
Definition ascii_digit (c : char) : bool := ((48 <=? c) && (c <=? 57))%N.
Definition ascii_alnum (c : char) : bool :=
  ascii_digit c || ascii_upper c || ascii_lower c.

(** The two tables of the Unicode database the script depends on and that
    are not spelled out here in full: [str.lower()] and [str.isalnum()] on
    one character.  The laws are the facts about them the proofs use. *)
Class Unicode := {
  lower : str -> str;
  is_alnum : char -> bool;
  alnum_ascii : forall c, (c < 128)%N -> is_alnum c = ascii_alnum c;
  alnum_cased : forall c,
    In c [220; 252; 304; 305; 383; 8490]%N -> is_alnum c = true;
  alnum_space : forall c, is_space c = true -> is_alnum c = false
}.

(** A concrete table: exact on Basic Latin, Latin-1 Supplement, Latin
    Extended-A, Cyrillic U+0400..U+045F and the Kelvin sign; code points
    outside these blocks are left alone by [py_lower] and are not
    alphanumeric for [py_isalnum]. *)
Definition py_lower_char (c : char) : str :=
  (if ascii_upper c then [c + 32]
   else if (192 <=? c) && (c <=? 222) && negb (c =? 215) then [c + 32]
   else if (c =? 304) then [105; 775]
   else if (c =? 376) then [255]
   else if (256 <=? c) && (c <=? 311) && N.even c then [c + 1]
   else if (313 <=? c) && (c <=? 328) && N.odd c then [c + 1]
   else if (330 <=? c) && (c <=? 375) && N.even c then [c + 1]
   else if (377 <=? c) && (c <=? 382) && N.odd c then [c + 1]
   else if (1024 <=? c) && (c <=? 1039) then [c + 80]
   else if (1040 <=? c) && (c <=? 1071) then [c + 32]
   else if (c =? 8490) then [107]
   else [c])%N.

Definition py_lower (s : str) : str := flat_map py_lower_char s.

Definition py_isalnum (c : char) : bool :=
  (ascii_alnum c
   || (c =? 170) || (c =? 178) || (c =? 179) || (c =? 181) || (c =? 185)
   || (c =? 186) || (188 <=? c) && (c <=? 190)
   || (192 <=? c) && (c <=? 383) && negb (c =? 215) && negb (c =? 247)
   || (1024 <=? c) && (c <=? 1119)
   || (c =? 8490))%N.

(** ** Regular expressions and string methods *)

Section Program.
Context {U : Unicode}.

(** [\w]: alphanumeric or underscore. *)
Definition is_word (c : char) : bool := is_alnum c || (c =? 95)%N.

(** Word status of the character at a position; false at the string edge. *)
Definition hd_word (s : str) : bool :=
  match s with
  | [] => false
  | c :: _ => is_word c
  end.

(** [\b] at a position: [pw] is the word status of the character before
    it, [s] the subject from the position on. *)
Definition boundary (pw : bool) (s : str) : bool := xorb pw (hd_word s).

(** Word status of the last character of [w], or [pw] when [w] is empty. *)
Definition pw_after (pw : bool) (w : str) : bool :=
  fold_left (fun _ c => is_word c) w pw.

(** A matcher tells, from the word status of the previous character and
    the rest of the subject, the length of the match at this position. *)
Definition matcher := bool -> str -> option nat.

(** Does [s] start with the literal [p], characters compared by [ceq]
    (pattern character first)? *)
Fixpoint lit_prefix (ceq : char -> char -> bool) (p s : str) : bool :=
  match p, s with
  | [], _ => true
  | a :: p', c :: s' => ceq a c && lit_prefix ceq p' s'
  | _ :: _, [] => false
  end.

(** A literal pattern. *)
Definition re_lit (ceq : char -> char -> bool) (p : str) : matcher :=
  fun _ s => if lit_prefix ceq p s then Some (length p) else None.

(** The first alternative that matches at the head of [s] and is followed
    by a word boundary. *)
Fixpoint first_alt (ceq : char -> char -> bool) (alts : list str)
    (pw : bool) (s : str) : option nat :=
  match alts with
  | [] => None
  | a :: alts' =>
    if lit_prefix ceq a s
       && boundary (pw_after pw (firstn (length a) s)) (skipn (length a) s)
    then Some (length a)
    else first_alt ceq alts' pw s
  end.

(** [\b(a1|...|an)\b]. *)
Definition re_word (ceq : char -> char -> bool) (alts : list str) : matcher :=
  fun pw s => if boundary pw s then first_alt ceq alts pw s else None.

Fixpoint span_space (s : str) : nat :=
  match s with
  | [] => 0
  | c :: s' => if is_space c then S (span_space s') else 0
  end.

(** [\s+], greedy. *)
Definition re_spaces : matcher :=
  fun _ s =>
    match span_space s with
    | O => None
    | S n => Some (S n)
    end.

(** [re.sub] for a pattern that never matches the empty string: scan from
    the left, replace each match and resume after it.  [skip] counts the
    characters of the current match still to be passed over. *)
Fixpoint sub_from (m : matcher) (repl : str) (skip : nat) (pw : bool)
    (s : str) : str :=
  match s with
  | [] => []
  | c :: s' =>
    match skip with
    | S k => sub_from m repl k (is_word c) s'
    | O =>
      match m pw s with
      | Some (S n) => repl ++ sub_from m repl n (is_word c) s'
      | _ => c :: sub_from m repl 0 (is_word c) s'
      end
    end
  end.

Definition re_sub (m : matcher) (repl s : str) : str :=
  sub_from m repl 0 false s.

(** [re.search]: is there a match at some position, the end included? *)
Fixpoint search_from (m : matcher) (pw : bool) (s : str) : bool :=
  match m pw s with
  | Some _ => true
  | None =>
    match s with
    | [] => false
    | c :: s' => search_from m (is_word c) s'
    end
  end.

Definition re_search (m : matcher) (s : str) : bool := search_from m false s.

(** [old in s]. *)
Fixpoint contains (k s : str) : bool :=
  lit_prefix N.eqb k s ||
  match s with
  | [] => false
  | _ :: s' => contains k s'
  end.

(** [s.replace(old, new)] for a non-empty [old]. *)
Definition replace (old new s : str) : str := re_sub (re_lit N.eqb old) new s.

(** [s.strip()]. *)
Fixpoint lstrip (s : str) : str :=
  match s with
  | [] => []
  | c :: s' => if is_space c then lstrip s' else s
  end.

Definition rstrip (s : str) : str := rev (lstrip (rev s)).
Definition strip (s : str) : str := rstrip (lstrip s).

(** Character comparison under [re.IGNORECASE] for a cased pattern
    character that is an ASCII letter or U+00DC/U+00FC: the subject
    character matches when its simple lowercase is the pattern's, which
    adds U+0130 and U+0131 to i, U+017F to s and U+212A to k. *)
Definition fold_ascii (c : char) : char :=
  if ascii_upper c then (c + 32)%N else c.

Definition ci_eq (p c : char) : bool :=
  let lo := fold_ascii p in
  ((fold_ascii c =? lo) && (c <? 128)
   || (lo =? 105) && ((c =? 304) || (c =? 305))
   || (lo =? 115) && (c =? 383)
   || (lo =? 107) && (c =? 8490)
   || ((p =? 220) || (p =? 252)) && ((c =? 220) || (c =? 252)))%N.

(** [str(n)] for an integer. *)
Definition py_str (z : Z) : str :=
  Utf8.bytes (NilEmpty.string_of_int (Z.to_int z)).

(** ** The script *)

Definition GLUTEN_KEYWORDS : list str := map u
  ["ekmek"; "pide"; "börek"; "böreğ"; "makarna"; "spagetti"; "bulgur"; "un";
   "şehriye"; "mantı"; "simit"; "galeta"; "pane"; "bisküvi"; "kraker";
   "tarhana"; "yulaf"; "çavdar"; "erişte"; "lazanya"; "canneloni";
   "ravioli"; "fusilli"; "farfalle"; "tagliatelle"; "şehriy"; "canaloni"]%string.

Definition MILK_KEYWORDS : list str := map u
  ["süt"; "yoğurt"; "peynir"; "peynır"; "kaşar"; "kasar"; "krema";
   "tereyağ"; "muhallebi"; "cacık"; "ayran"; "beşamel"; "labne"; "lor";
   "parmesan"; "mozarella"; "mascarpone"; "kremali"; "sütlü"; "graten";
   "beğendi"]%string.

Definition EGG_KEYWORDS : list str := map u
  ["yumurta"; "omlet"; "menemen"; "mayonez"]%string.

Definition FISH_KEYWORDS : list str := map u
  ["balık"; "balik"; "somon"; "ton"; "levrek"; "çipura"; "cipura";
   "kalamar"; "karides"; "karıdes"; "ahtapot"; "hamsi"; "palamut";
   "uskumru"; "mezgit"; "sardalya"; "çinekop"; "cinekop"; "barbun";
   "barb"; "kılıç"; "kiliç"; "kolyos"; "orkinos"; "lüfer"; "lufer";
   "alabalık"; "alabalik"; "dil balığı"; "sübye"; "subye"; "yengeç";
   "yengec"; "paella"; "deniz mahsülleri"; "denizmahsülleri";
   "deniz ürünleri"; "çupra"; "çipura"; "cipura"; "istavrit"; "istravit"]%string.

Definition normalize_turkish (text : str) : str :=
  match text with
  | [] => []
  | _ => lower (replace (u "I") (u "ı") (replace (u "İ") (u "i") text))
  end.

(** The [for keyword in keywords] loop of [check_allergen]. *)
Fixpoint check_keywords (text_normalized : str) (keywords : list str) : Z :=
  match keywords with
  | [] => 0
  | keyword :: rest =>
    let keyword_normalized := normalize_turkish keyword in
    if length keyword_normalized <=? 2 then
      if re_search (re_word N.eqb [keyword_normalized]) text_normalized
      then 1 else check_keywords text_normalized rest
    else
      if contains keyword_normalized text_normalized
      then 1 else check_keywords text_normalized rest
  end.

Definition check_allergen (text : str) (keywords : list str) : Z :=
  match text with
  | [] => 0
  | _ => check_keywords (normalize_turkish text) keywords
  end.

Definition improve_english (text : str) : str :=
  match text with
  | [] => text
  | _ =>
    let text := replace (u "SAUTEED OF SHRIMP") (u "Sauteed Shrimp") text in
    let text := replace (u "ADANA STYLE KEBAP") (u "Adana Style Kebab") text in
    let text := replace (u "ADANA STIL KEBAP") (u "Adana Style Kebab") text in
    let text :=
      re_sub (re_word ci_eq [u "STIL"; u "Stil"; u "USULÜ"; u "USULU"])
             (u "Style") text in
    let text := re_sub (re_word ci_eq [u "KEBAP"]) (u "Kebab") text in
    text
  end.

Definition improve_german (text : str) : str :=
  match text with
  | [] => text
  | _ =>
    let text := re_sub (re_lit N.eqb (u "STILSUPPE")) (u "SUPPE") text in
    let text := re_sub (re_lit N.eqb (u "STILFILET")) (u "FILET") text in
    let text := re_sub (re_lit N.eqb (u "STILFRIKADELLE")) (u "FRIKADELLE") text in
    let text := re_sub (re_word N.eqb [u "STIL"]) [] text in
    let text := re_sub (re_word N.eqb [u "Stil"]) [] text in
    let text := strip (re_sub re_spaces (u " ") text) in
    text
  end.

Definition improve_russian (text : str) : str :=
  match text with
  | [] => text
  | _ =>
    let result := re_sub re_spaces (u " ") text in
    let result := strip result in
    result
  end.

(** ** The row loop of [process_csv] *)

Definition Row := list str.

(** The variables the loop updates: the output table and three counters. *)
Record Run := mkRun {
  output_rows : list Row;
  rows_processed : nat;
  allergens_updated : nat;
  translations_improved : nat
}.

Inductive exn := IndexError.

(** State and exceptions: an exception keeps the state reached so far, as
    assignments made in a [try] block survive into its handler.  The
    operations are the same whatever the variables [S] and the exceptions
    [E] are. *)
Definition M (A : Type) : Type := Run -> (exn + A) * Run.

Definition ret {E S A} (a : A) : S -> (E + A) * S := fun st => (inr a, st).

Definition bind {E S A B} (c : S -> (E + A) * S) (k : A -> S -> (E + B) * S) :
    S -> (E + B) * S :=
  fun st =>
    match c st with
    | (inl e, st') => (inl e, st')
    | (inr a, st') => k a st'
    end.

Definition raise {E S A} (e : E) : S -> (E + A) * S := fun st => (inl e, st).

Definition try_except {E S A} (c : S -> (E + A) * S)
    (handler : E -> S -> (E + A) * S) : S -> (E + A) * S :=
  fun st =>
    match c st with
    | (inl e, st') => handler e st'
    | (inr a, st') => (inr a, st')
    end.

Definition modify {E S} (f : S -> S) : S -> (E + unit) * S :=
  fun st => (inr tt, f st).

Definition when {E S} (b : bool) (c : S -> (E + unit) * S) : S -> (E + unit) * S :=
  if b then c else ret tt.

Notation "x <- c ;; k" := (bind c (fun x => k))
  (at level 61, c at next level, right associativity).
Notation "c ;;; k" := (bind c (fun _ => k))
  (at level 61, right associativity).

(** [row[k]]. *)
Definition item (row : Row) (k : nat) : M str :=
  match nth_error row k with
  | Some x => ret x
  | None => raise IndexError
  end.

Fixpoint str_eqb (a b : str) : bool :=
  match a, b with
  | [], [] => true
  | x :: a', y :: b' => (x =? y)%N && str_eqb a' b'
  | _, _ => false
  end.

Definition append_row (row : Row) (st : Run) : Run :=
  mkRun (output_rows st ++ [row]) (rows_processed st)
        (allergens_updated st) (translations_improved st).

Definition count_processed (st : Run) : Run :=
  mkRun (output_rows st) (S (rows_processed st))
        (allergens_updated st) (translations_improved st).

Definition count_allergens (st : Run) : Run :=
  mkRun (output_rows st) (rows_processed st)
        (S (allergens_updated st)) (translations_improved st).

Definition count_translations (st : Run) : Run :=
  mkRun (output_rows st) (rows_processed st)
        (allergens_updated st) (S (translations_improved st)).

(** The body of the [try] block. *)
Definition try_body (row : Row) : M unit :=
  id_num <- item row 0 ;;
  tr <- item row 1 ;;
  en <- item row 2 ;;
  de <- item row 3 ;;
  ru <- item row 4 ;;
  gluten <- item row 5 ;;
  milk <- item row 6 ;;
  egg <- item row 7 ;;
  fish <- item row 8 ;;
  let new_gluten := py_str (check_allergen tr GLUTEN_KEYWORDS) in
  let new_milk := py_str (check_allergen tr MILK_KEYWORDS) in
  let new_egg := py_str (check_allergen tr EGG_KEYWORDS) in
  let new_fish := py_str (check_allergen tr FISH_KEYWORDS) in
  when (negb (str_eqb new_gluten gluten) || negb (str_eqb new_milk milk)
        || negb (str_eqb new_egg egg) || negb (str_eqb new_fish fish))
       (modify count_allergens) ;;;
  let new_en := improve_english en in
  let new_de := improve_german de in
  let new_ru := improve_russian ru in
  when (negb (str_eqb new_en en) || negb (str_eqb new_de de)
        || negb (str_eqb new_ru ru))
       (modify count_translations) ;;;
  let new_row :=
    [id_num; tr; new_en; new_de; new_ru; new_gluten; new_milk; new_egg; new_fish] in
  modify (append_row new_row) ;;;
  modify count_processed.

(** One iteration of [for i, row in enumerate(rows)]. *)
Definition process_row (i : nat) (row : Row) : M unit :=
  if i =? 0 then modify (append_row row)
  else if length row <? 9 then modify (append_row row)
  else try_except (try_body row) (fun _ => modify (append_row row)).

Fixpoint for_rows (i : nat) (rows : list Row) : M unit :=
  match rows with
  | [] => ret tt
  | row :: rest => process_row i row ;;; for_rows (S i) rest
  end.

Definition initial : Run := mkRun [] 0 0 0.

(** [process_csv] between reading [rows] and writing [output_rows]: the
    outcome of the loop and the final values of its variables. *)
Definition process_csv (rows : list Row) : (exn + unit) * Run :=
  for_rows 0 rows initial.

End Program.

(** The variables after one iteration at a data index, and the row that
    iteration appends. *)
Definition run_row `{Unicode} (row : Row) (st : Run) : Run :=
  snd (process_row 1 row st).

Definition emitted `{Unicode} (row : Row) : Row :=
  last (output_rows (run_row row initial)) row.

(** ** The row loop on fields of any type

    [csv.reader] yields rows of [str], and on those the [try] block of
    [process_csv] does not raise.  Its [except] branch is reached when a
    field is of another type.  The functions and the loop are given here
    once more for fields that are a [str], an [int] or [None], with the
    exceptions the operations on them raise; on a [str] each function is
    the one above. *)

Module Dyn.
Section Dynamic.
Context {U : Unicode}.

Inductive value := PyStr (s : str) | PyInt (z : Z) | PyNone.

Inductive exn := IndexError | AttributeError | TypeError.

(** The truth value of a field: [not v] is [negb (truthy v)]. *)
Definition truthy (v : value) : bool :=
  match v with
  | PyStr [] => false
  | PyStr (_ :: _) => true
  | PyInt z => negb (z =? 0)%Z
  | PyNone => false
  end.

(** [a == b]; a [str], an [int] and [None] are never equal to one
    another. *)
Definition value_eqb (a b : value) : bool :=
  match a, b with
  | PyStr s, PyStr t => str_eqb s t
  | PyInt x, PyInt y => (x =? y)%Z
  | PyNone, PyNone => true
  | _, _ => false
  end.

(** The variables of the loop, and computations on them that may raise. *)
Record Run := mkRun {
  output_rows : list (list value);
  rows_processed : nat;
  allergens_updated : nat;
  translations_improved : nat
}.

Definition M (A : Type) : Type := Run -> (exn + A) * Run.

Notation "x <- c ;; k" := (bind c (fun x => k))
  (at level 61, c at next level, right associativity).
Notation "c ;;; k" := (bind c (fun _ => k))
  (at level 61, right associativity).

(** [text.replace(...)] on an [int] raises AttributeError; [None] and 0
    leave at the guard. *)
Definition normalize_turkish (text : value) : M str :=
  if negb (truthy text) then ret []
  else
    match text with
    | PyStr s => ret (normalize_turkish s)
    | _ => raise AttributeError
    end.

Definition check_allergen (text : value) (keywords : list str) : M Z :=
  if negb (truthy text) then ret 0%Z
  else
    text_normalized <- normalize_turkish text ;;
    ret (check_keywords text_normalized keywords).

(** The first operation after the guard is [text.replace(...)]. *)
Definition improve_english (text : value) : M value :=
  if negb (truthy text) then ret text
  else
    match text with
    | PyStr s => ret (PyStr (improve_english s))
    | _ => raise AttributeError
    end.

(** The first operation after the guard is [re.sub(...)], which raises
    TypeError on an [int]. *)
Definition improve_german (text : value) : M value :=
  if negb (truthy text) then ret text
  else
    match text with
    | PyStr s => ret (PyStr (improve_german s))
    | _ => raise TypeError
    end.

Definition improve_russian (text : value) : M value :=
  if negb (truthy text) then ret text
  else
    match text with
    | PyStr s => ret (PyStr (improve_russian s))
    | _ => raise TypeError
    end.

(** [row[k]]. *)
Definition item (row : list value) (k : nat) : M value :=
  match nth_error row k with
  | Some x => ret x
  | None => raise IndexError
  end.

Definition append_row (row : list value) (st : Run) : Run :=
  mkRun (output_rows st ++ [row]) (rows_processed st)
        (allergens_updated st) (translations_improved st).

Definition count_processed (st : Run) : Run :=
  mkRun (output_rows st) (S (rows_processed st))
        (allergens_updated st) (translations_improved st).

Definition count_allergens (st : Run) : Run :=
  mkRun (output_rows st) (rows_processed st)
        (S (allergens_updated st)) (translations_improved st).

Definition count_translations (st : Run) : Run :=
  mkRun (output_rows st) (rows_processed st)
        (allergens_updated st) (S (translations_improved st)).

(** The body of the [try] block. *)
Definition try_body (row : list value) : M unit :=
  id_num <- item row 0 ;;
  tr <- item row 1 ;;
  en <- item row 2 ;;
  de <- item row 3 ;;
  ru <- item row 4 ;;
  gluten <- item row 5 ;;
  milk <- item row 6 ;;
  egg <- item row 7 ;;
  fish <- item row 8 ;;
  g <- check_allergen tr GLUTEN_KEYWORDS ;;
  let new_gluten := PyStr (py_str g) in
  m <- check_allergen tr MILK_KEYWORDS ;;
  let new_milk := PyStr (py_str m) in
  e <- check_allergen tr EGG_KEYWORDS ;;
  let new_egg := PyStr (py_str e) in
  f <- check_allergen tr FISH_KEYWORDS ;;
  let new_fish := PyStr (py_str f) in
  when (negb (value_eqb new_gluten gluten) || negb (value_eqb new_milk milk)
        || negb (value_eqb new_egg egg) || negb (value_eqb new_fish fish))
       (modify count_allergens) ;;;
  new_en <- improve_english en ;;
  new_de <- improve_german de ;;
  new_ru <- improve_russian ru ;;
  when (negb (value_eqb new_en en) || negb (value_eqb new_de de)
        || negb (value_eqb new_ru ru))
       (modify count_translations) ;;;
  let new_row :=
    [id_num; tr; new_en; new_de; new_ru; new_gluten; new_milk; new_egg; new_fish] in
  modify (append_row new_row) ;;;
  modify count_processed.

(** One iteration of [for i, row in enumerate(rows)]. *)
Definition process_row (i : nat) (row : list value) : M unit :=
  if i =? 0 then modify (append_row row)
  else if length row <? 9 then modify (append_row row)
  else try_except (try_body row) (fun _ => modify (append_row row)).

Fixpoint for_rows (i : nat) (rows : list (list value)) : M unit :=
  match rows with
  | [] => ret tt
  | row :: rest => process_row i row ;;; for_rows (S i) rest
  end.

Definition initial : Run := mkRun [] 0 0 0.

Definition process_csv (rows : list (list value)) : (exn + unit) * Run :=
  for_rows 0 rows initial.

End Dynamic.
End Dyn.

(** Rows of [str] fields and the variables of the loop over them, as
    rows and variables of the loop above. *)
Definition dyn_row (row : Row) : list Dyn.value := map Dyn.PyStr row.

Definition dyn_run (st : Run) : Dyn.Run :=
  Dyn.mkRun (map dyn_row (output_rows st)) (rows_processed st)
            (allergens_updated st) (translations_improved st).

(** ** Notions used to state and prove the properties *)

Section Notions.
Context {U : Unicode}.

(** *** The row loop *)

Definition flags_differ (tr gluten milk egg fish : str) : bool :=
  negb (str_eqb (py_str (check_allergen tr GLUTEN_KEYWORDS)) gluten)
  || negb (str_eqb (py_str (check_allergen tr MILK_KEYWORDS)) milk)
  || negb (str_eqb (py_str (check_allergen tr EGG_KEYWORDS)) egg)
  || negb (str_eqb (py_str (check_allergen tr FISH_KEYWORDS)) fish).

Definition names_differ (en de ru : str) : bool :=
  negb (str_eqb (improve_english en) en)
  || negb (str_eqb (improve_german de) de)
  || negb (str_eqb (improve_russian ru) ru).

Definition new_row (id_num tr en de ru : str) : Row :=
  [id_num; tr; improve_english en; improve_german de; improve_russian ru;
   py_str (check_allergen tr GLUTEN_KEYWORDS);
   py_str (check_allergen tr MILK_KEYWORDS);
   py_str (check_allergen tr EGG_KEYWORDS);
   py_str (check_allergen tr FISH_KEYWORDS)].

(** *** Occurrences of a literal *)

Definition mem (c : char) (p : str) : bool := existsb (N.eqb c) p.

(** [apart p r]: the literal [p] cannot overlap an inserted [r]. [p] does
    not end in the first character of [r], holds neither the second nor
    the last character of [r], and does not occur in [r]. *)
Definition apart (p r : str) : bool :=
  match r with
  | r0 :: r1 :: _ =>
    negb (last p 0 =? r0)%N && negb (mem r1 p)
    && negb (mem (last r 0%N) p) && negb (contains p r)
  | _ => false
  end.

(** *** Words *)

Definition all_word (t : str) : bool := forallb is_word t.

(** Rewriting every maximal run of word characters by [f]; [cur] is the
    part of the current run already read. *)
Fixpoint sub_tok (f : str -> str) (cur s : str) : str :=
  match s with
  | [] => f cur
  | c :: s' =>
    if is_word c then sub_tok f (cur ++ [c]) s'
    else f cur ++ c :: sub_tok f [] s'
  end.

(** Every maximal run of word characters satisfies [P]. *)
Fixpoint all_tok (P : str -> Prop) (cur s : str) : Prop :=
  match s with
  | [] => P cur
  | c :: s' =>
    if is_word c then all_tok P (cur ++ [c]) s'
    else P cur /\ all_tok P [] s'
  end.

(** The alternative [a] matches the whole of [t]. *)
Definition exact (ceq : char -> char -> bool) (a t : str) : bool :=
  lit_prefix ceq a t && (length a =? length t).

Definition tok_match (ceq : char -> char -> bool) (alts : list str) (t : str) : bool :=
  existsb (fun a => exact ceq a t) alts.

Definition tok_sub (ceq : char -> char -> bool) (alts : list str) (r t : str) : str :=
  if tok_match ceq alts t then r else t.

(** An alternative made of characters that only match word characters. *)
Definition wordy (ceq : char -> char -> bool) (a : str) : Prop :=
  a <> [] /\ forall x c, In x a -> ceq x c = true -> is_word c = true.

(** *** Whitespace *)

Definition hd_space (s : str) : bool :=
  match s with
  | [] => false
  | c :: _ => is_space c
  end.

(** Single-spaced: every whitespace character is U+0020 and is not
    followed by another one. *)
Fixpoint spaced (s : str) : Prop :=
  match s with
  | [] => True
  | c :: s' =>
    (is_space c = true -> c = 32%N /\ hd_space s' = false) /\ spaced s'
  end.

Definition collapse (s : str) : str := re_sub re_spaces [32%N] s.

(** *** The patterns of the cleanup functions *)

Definition ascii_word (c : char) : bool :=
  ((c <? 128) && (ascii_alnum c || (c =? 95)))%N.

(** Pattern characters whose case-insensitive matches are spelled out by
    [ci_eq]. *)
Definition ci_letter (x : char) : bool :=
  (ascii_upper x || ascii_lower x || (x =? 220) || (x =? 252))%N.

Definition style_alts : list str := [u "STIL"; u "Stil"; u "USULÜ"; u "USULU"].

Definition kebap_alts : list str := [u "KEBAP"].

Definition style_word : str -> str := tok_sub ci_eq style_alts (u "Style").

Definition kebap_word : str -> str := tok_sub ci_eq kebap_alts (u "Kebab").

Definition drop_STIL : str -> str := tok_sub N.eqb [u "STIL"] [].

Definition drop_Stil : str -> str := tok_sub N.eqb [u "Stil"] [].

Definition english (s : str) : str :=
  re_sub (re_word ci_eq style_alts) (u "Style")
    (replace (u "ADANA STIL KEBAP") (u "Adana Style Kebab")
      (replace (u "ADANA STYLE KEBAP") (u "Adana Style Kebab")
        (replace (u "SAUTEED OF SHRIMP") (u "Sauteed Shrimp") s))).

Definition german (s : str) : str :=
  re_sub (re_word N.eqb [u "Stil"]) []
    (re_sub (re_word N.eqb [u "STIL"]) []
      (replace (u "STILFRIKADELLE") (u "FRIKADELLE")
        (replace (u "STILFILET") (u "FILET")
          (replace (u "STILSUPPE") (u "SUPPE") s)))).

(** None of the three compound patterns of the German cleanup occurs. *)
Definition no_compound (s : str) : Prop :=
  contains (u "STILSUPPE") s = false
  /\ contains (u "STILFILET") s = false
  /\ contains (u "STILFRIKADELLE") s = false.

(** *** The match rule of [check_allergen] *)

(** [k] occurs in [t] between two word boundaries. *)
Definition word_bounded (k t : str) : Prop :=
  exists a b, t = a ++ k ++ b
    /\ boundary (pw_after false a) (k ++ b) = true
    /\ boundary (pw_after false (a ++ k)) b = true.

(** The match rule of the loop body, on normalized keyword and subject. *)
Definition keyword_matches (k t : str) : Prop :=
  if length k <=? 2 then word_bounded k t
  else exists a b, t = a ++ k ++ b.

(** The match rule as the specification words it: a short keyword must be
    bounded on both sides by a character that is not a letter or digit,
    or by a string edge. *)
Definition spec_whole_word (k t : str) : Prop :=
  exists a b, t = a ++ k ++ b
    /\ (a = [] \/ is_alnum (last a 0%N) = false)
    /\ (b = [] \/ is_alnum (hd 0%N b) = false).

Definition spec_keyword_matches (k t : str) : Prop :=
  if length k <=? 2 then spec_whole_word k t
  else exists a b, t = a ++ k ++ b.

(** The two substitutions of [normalize_turkish] on one character. *)
Definition turkish_i (c : char) : char :=
  if (c =? 304)%N then 105%N else if (c =? 73)%N then 305%N else c.

(** *** Rows that count *)

(** The guard of line 136 and the two tests of lines 158 and 166, on a
    whole row. *)
Definition long_row (r : Row) : bool := 9 <=? length r.

Definition flags_changed (r : Row) : bool :=
  match r with
  | _ :: tr :: _ :: _ :: _ :: gluten :: milk :: egg :: fish :: _ =>
    flags_differ tr gluten milk egg fish
  | _ => false
  end.

Definition names_changed (r : Row) : bool :=
  match r with
  | _ :: _ :: en :: de :: ru :: _ :: _ :: _ :: _ :: _ =>
    names_differ en de ru
  | _ => false
  end.

Definition has_compound (s : str) : bool :=
  contains (u "STILSUPPE") s || contains (u "STILFILET") s
  || contains (u "STILFRIKADELLE") s.

(** A row of nine or more fields whose cleaned German field still holds a
    compound pattern. *)
Definition still_compound (r : Row) : bool :=
  match r with
  | _ :: _ :: _ :: de :: _ :: _ :: _ :: _ :: _ :: _ =>
    has_compound (improve_german de)
  | _ => false
  end.

(** *** Normal forms of the cleanup functions *)

Definition not_space (c : char) : bool := negb (is_space c).

(** Neither the first nor the last character is whitespace. *)
Definition trimmed (s : str) : Prop :=
  hd_space s = false /\ hd_space (rev s) = false.

(** No known phrase occurs and no word matches one of the word rules. *)
Definition english_clean (s : str) : Prop :=
  contains (u "SAUTEED OF SHRIMP") s = false
  /\ contains (u "ADANA STYLE KEBAP") s = false
  /\ contains (u "ADANA STIL KEBAP") s = false
  /\ all_tok (fun t => tok_match ci_eq style_alts t = false) [] s
  /\ all_tok (fun t => tok_match ci_eq kebap_alts t = false) [] s.

(** No maximal run of word characters is the word STIL or Stil. *)
Definition no_stil_word (s : str) : Prop :=
  all_tok (fun t => t <> u "STIL" /\ t <> u "Stil") [] s.


(** *** The row loop on fields of any type *)

(** The fields on which the functions of the script raise: an [int]
    other than 0. *)
Definition raising (v : Dyn.value) : bool :=
  match v with
  | Dyn.PyInt z => negb (z =? 0)%Z
  | _ => false
  end.

(** What [str(check_allergen(tr, kws))] and the cleanup functions give
    on a field that does not raise. *)
Definition dyn_flag (tr : Dyn.value) (kws : list str) : Dyn.value :=
  Dyn.PyStr (py_str (match tr with
                      | Dyn.PyStr s => check_allergen s kws
                      | _ => 0%Z
                      end)).

Definition dyn_clean (f : str -> str) (v : Dyn.value) : Dyn.value :=
  match v with
  | Dyn.PyStr s => Dyn.PyStr (f s)
  | _ => v
  end.

Definition dyn_flags_differ (tr gluten milk egg fish : Dyn.value) : bool :=
  negb (Dyn.value_eqb (dyn_flag tr GLUTEN_KEYWORDS) gluten)
  || negb (Dyn.value_eqb (dyn_flag tr MILK_KEYWORDS) milk)
  || negb (Dyn.value_eqb (dyn_flag tr EGG_KEYWORDS) egg)
  || negb (Dyn.value_eqb (dyn_flag tr FISH_KEYWORDS) fish).

Definition dyn_names_differ (en de ru : Dyn.value) : bool :=
  negb (Dyn.value_eqb (dyn_clean improve_english en) en)
  || negb (Dyn.value_eqb (dyn_clean improve_german de) de)
  || negb (Dyn.value_eqb (dyn_clean improve_russian ru) ru).

(** The row is one whose flags are compared and found changed: its name
    field does not raise, and a recomputed flag differs from the one the
    row holds. *)
Definition dyn_counted (row : list Dyn.value) : bool :=
  match row with
  | _ :: tr :: _ :: _ :: _ :: gluten :: milk :: egg :: fish :: _ =>
    negb (raising tr) && dyn_flags_differ tr gluten milk egg fish
  | _ => false
  end.


End Notions.

(** * Properties *)

(** ** The concrete table satisfies the laws *)

Ltac decide_cmp :=
  repeat match goal with
  | |- context [N.eqb ?a ?b] =>
    first [ replace (N.eqb a b) with false by (symmetry; apply N.eqb_neq; lia)
          | replace (N.eqb a b) with true by (symmetry; apply N.eqb_eq; lia) ]
  | |- context [N.leb ?a ?b] =>
    first [ replace (N.leb a b) with false by (symmetry; apply N.leb_gt; lia)
          | replace (N.leb a b) with true by (symmetry; apply N.leb_le; lia) ]
  | |- context [N.ltb ?a ?b] =>
    first [ replace (N.ltb a b) with false by (symmetry; apply N.ltb_ge; lia)
          | replace (N.ltb a b) with true by (symmetry; apply N.ltb_lt; lia) ]
  end.

Lemma is_space_cases c :
  is_space c = true ->
  ((9 <= c <= 13) \/ (28 <= c <= 32) \/ c = 133 \/ c = 160 \/ c = 5760
   \/ (8192 <= c <= 8202) \/ c = 8232 \/ c = 8233 \/ c = 8239 \/ c = 8287
   \/ c = 12288)%N.
Proof.
  unfold is_space.
  rewrite !orb_true_iff, !andb_true_iff, !N.leb_le, !N.eqb_eq. tauto.
Qed.

Lemma py_isalnum_ascii c : (c < 128)%N -> py_isalnum c = ascii_alnum c.
Proof.
  intros Hc. unfold py_isalnum.
  destruct (ascii_alnum c); [reflexivity|]. decide_cmp. reflexivity.
Qed.

Lemma py_isalnum_cased c :
  In c [220; 252; 304; 305; 383; 8490]%N -> py_isalnum c = true.
Proof.
  simpl. intros H. repeat (destruct H as [<-|H]; [reflexivity|]). destruct H.
Qed.

Lemma py_isalnum_space c : is_space c = true -> py_isalnum c = false.
Proof.
  intros H. apply is_space_cases in H.
  unfold py_isalnum, ascii_alnum, ascii_digit, ascii_upper, ascii_lower.
  repeat (destruct H as [H|H]); decide_cmp; reflexivity.
Qed.

#[export] Instance py_unicode : Unicode := {|
  lower := py_lower;
  is_alnum := py_isalnum;
  alnum_ascii := py_isalnum_ascii;
  alnum_cased := py_isalnum_cased;
  alnum_space := py_isalnum_space
|}.

(** ** The row loop *)

Section Loop.
Context {U : Unicode}.

Lemma try_body_long id_num tr en de ru gluten milk egg fish rest st :
  try_body (id_num :: tr :: en :: de :: ru :: gluten :: milk :: egg :: fish :: rest) st
  = (inr tt,
     mkRun (output_rows st ++ [new_row id_num tr en de ru])
           (S (rows_processed st))
           (if flags_differ tr gluten milk egg fish
            then S (allergens_updated st) else allergens_updated st)
           (if names_differ en de ru
            then S (translations_improved st) else translations_improved st)).
Proof.
  unfold flags_differ, names_differ, new_row.
  cbv [try_body item bind ret nth_error when modify].
  destruct (negb _ || negb _ || negb _ || negb _);
    destruct (negb _ || negb _ || negb _); reflexivity.
Qed.

Lemma long_row_shape (row : Row) :
  9 <= length row ->
  exists id_num tr en de ru gluten milk egg fish rest,
    row = id_num :: tr :: en :: de :: ru :: gluten :: milk :: egg :: fish :: rest.
Proof.
  intros H.
  do 9 (destruct row as [|? row]; [simpl in H; lia|]).
  repeat eexists.
Qed.

(** The [try] block never raises on a row of nine or more fields. *)
Lemma try_body_ok row st : 9 <= length row -> fst (try_body row st) = inr tt.
Proof.
  intros H. destruct (long_row_shape row H) as (a&b&c&d&e&f&g&h&i&r&->).
  rewrite try_body_long. reflexivity.
Qed.

Lemma try_body_short row st : length row < 9 -> try_body row st = (inl IndexError, st).
Proof.
  intros H.
  do 9 (destruct row as [|? row]; [reflexivity|]).
  simpl in H. lia.
Qed.

Lemma process_row_data i row st :
  1 <= i -> process_row i row st = process_row 1 row st.
Proof.
  intros H. unfold process_row.
  destruct i; [lia|]. reflexivity.
Qed.

Lemma process_row_short i row st :
  1 <= i -> length row < 9 ->
  process_row i row st = (inr tt, append_row row st).
Proof.
  intros Hi H. rewrite process_row_data by assumption.
  unfold process_row. simpl (1 =? 0).
  apply Nat.ltb_lt in H. rewrite H. reflexivity.
Qed.

Lemma process_row_long i id_num tr en de ru gluten milk egg fish rest st :
  1 <= i ->
  process_row i (id_num :: tr :: en :: de :: ru :: gluten :: milk :: egg :: fish :: rest) st
  = try_body (id_num :: tr :: en :: de :: ru :: gluten :: milk :: egg :: fish :: rest) st.
Proof.
  intros Hi. rewrite process_row_data by assumption.
  unfold process_row, try_except.
  change (1 =? 0) with false. cbv iota.
  replace (length _ <? 9) with false by (symmetry; apply Nat.ltb_ge; simpl; lia).
  rewrite try_body_long. reflexivity.
Qed.

Lemma process_row_ok i row st : fst (process_row i row st) = inr tt.
Proof.
  destruct i as [|i]; [reflexivity|].
  destruct (Nat.lt_ge_cases (length row) 9) as [H|H].
  - rewrite process_row_short by (assumption || lia). reflexivity.
  - destruct (long_row_shape row H) as (a&b&c&d&e&f&g&h&k&r&->).
    rewrite process_row_long by lia. rewrite try_body_long. reflexivity.
Qed.

Lemma emitted_short row : length row < 9 -> emitted row = row.
Proof.
  intros H. unfold emitted, run_row.
  rewrite process_row_short by (assumption || lia). reflexivity.
Qed.

Lemma emitted_long id_num tr en de ru gluten milk egg fish rest :
  emitted (id_num :: tr :: en :: de :: ru :: gluten :: milk :: egg :: fish :: rest)
  = new_row id_num tr en de ru.
Proof.
  unfold emitted, run_row.
  rewrite process_row_long by lia. rewrite try_body_long. reflexivity.
Qed.

Lemma run_row_output row st :
  output_rows (run_row row st) = output_rows st ++ [emitted row].
Proof.
  destruct (Nat.lt_ge_cases (length row) 9) as [H|H].
  - rewrite emitted_short by assumption. unfold run_row.
    rewrite process_row_short by (assumption || lia). reflexivity.
  - destruct (long_row_shape row H) as (a&b&c&d&e&f&g&h&k&r&->).
    rewrite emitted_long. unfold run_row.
    rewrite process_row_long by lia. rewrite try_body_long. reflexivity.
Qed.

Lemma for_rows_data rows : forall i st,
  1 <= i ->
  for_rows i rows st = (inr tt, fold_left (fun s row => run_row row s) rows st).
Proof.
  induction rows as [|row rows IH]; intros i st Hi; [reflexivity|].
  simpl. unfold bind.
  pose proof (process_row_ok i row st) as Hok.
  rewrite (process_row_data i row st Hi) in *.
  unfold run_row.
  destruct (process_row 1 row st) as [[e|[]] st']; [discriminate|].
  apply IH. lia.
Qed.

Lemma fold_run_output rows : forall st,
  output_rows (fold_left (fun s row => run_row row s) rows st)
  = output_rows st ++ map emitted rows.
Proof.
  induction rows as [|row rows IH]; intros st; simpl.
  - now rewrite app_nil_r.
  - rewrite IH, run_row_output, <- app_assoc. reflexivity.
Qed.

(** The table written out: the header as it is, then the row emitted for
    each data row; the loop always runs to its end. *)
Lemma process_csv_output header rows :
  fst (process_csv (header :: rows)) = inr tt /\
  output_rows (snd (process_csv (header :: rows))) = header :: map emitted rows.
Proof.
  unfold process_csv. simpl. unfold bind. simpl.
  rewrite for_rows_data by lia. simpl.
  rewrite fold_run_output. split; reflexivity.
Qed.

End Loop.

(** ** Literal prefixes, containment and search *)

Section Matching.
Context {U : Unicode}.

Lemma lit_prefix_eqb_iff k s :
  lit_prefix N.eqb k s = true <-> exists b, s = k ++ b.
Proof.
  revert s. induction k as [|a k IH]; intros s; simpl.
  - split; [intros _; now exists s | intros _; reflexivity].
  - destruct s as [|c s].
    + split; [discriminate | intros [b Hb]; discriminate].
    + rewrite andb_true_iff, N.eqb_eq, IH. split.
      * intros [-> [b ->]]. now exists b.
      * intros [b Hb]. injection Hb as -> ->. split; [reflexivity | now exists b].
Qed.

Lemma lit_prefix_app k b : lit_prefix N.eqb k (k ++ b) = true.
Proof. apply lit_prefix_eqb_iff. now exists b. Qed.

Lemma contains_iff k s :
  contains k s = true <-> exists a b, s = a ++ k ++ b.
Proof.
  induction s as [|c s IH]; simpl; rewrite orb_true_iff, lit_prefix_eqb_iff.
  - split.
    + intros [[b Hb]|H]; [|discriminate]. exists [], b. exact Hb.
    + intros (a & b & H). left. destruct a; [now exists b|discriminate].
  - rewrite IH. split.
    + intros [[b Hb]|(a & b & ->)].
      * exists [], b. exact Hb.
      * exists (c :: a), b. reflexivity.
    + intros (a & b & H). destruct a as [|x a].
      * left. now exists b.
      * right. injection H as -> ->. now exists a, b.
Qed.

Lemma pw_after_app pw a b : pw_after pw (a ++ b) = pw_after (pw_after pw a) b.
Proof. unfold pw_after. apply fold_left_app. Qed.

Lemma pw_after_cons pw c a : pw_after pw (c :: a) = pw_after (is_word c) a.
Proof. reflexivity. Qed.

Lemma pw_after_snoc pw a c : pw_after pw (a ++ [c]) = is_word c.
Proof. rewrite pw_after_app. reflexivity. Qed.

(** A word-bounded single literal matches at the head of [s] exactly when
    [s] starts with it and both ends sit on a word boundary. *)
Lemma re_word_one_iff k pw s :
  (exists n, re_word N.eqb [k] pw s = Some n) <->
  exists b, s = k ++ b /\ boundary pw s = true
            /\ boundary (pw_after pw k) b = true.
Proof.
  unfold re_word. simpl. split.
  - intros [n Hn]. destruct (boundary pw s) eqn:Hb; [|discriminate].
    destruct (lit_prefix N.eqb k s) eqn:Hp; [|discriminate].
    apply lit_prefix_eqb_iff in Hp. destruct Hp as [b ->].
    rewrite firstn_app, Nat.sub_diag, firstn_all, app_nil_r in Hn.
    rewrite skipn_app, Nat.sub_diag, skipn_all in Hn. simpl in Hn.
    destruct (boundary (pw_after pw k) b) eqn:He; [|discriminate].
    exists b. auto.
  - intros (b & -> & Hb & He). rewrite Hb, lit_prefix_app.
    rewrite firstn_app, Nat.sub_diag, firstn_all, app_nil_r.
    rewrite skipn_app, Nat.sub_diag, skipn_all. simpl.
    rewrite He. now eexists.
Qed.

Lemma search_from_iff m s : forall pw,
  search_from m pw s = true <->
  exists a b n, s = a ++ b /\ m (pw_after pw a) b = Some n.
Proof.
  induction s as [|c s IH]; intros pw; simpl.
  - destruct (m pw []) as [n|] eqn:Hm.
    + split; [intros _|intros _; reflexivity]. now exists [], [], n.
    + split; [discriminate|]. intros (a & b & n & H & Hn).
      symmetry in H. apply app_eq_nil in H. destruct H as [-> ->].
      simpl in Hn. congruence.
  - destruct (m pw (c :: s)) as [n|] eqn:Hm.
    + split; [intros _|intros _; reflexivity]. now exists [], (c :: s), n.
    + rewrite IH. split.
      * intros (a & b & n & -> & Hn). now exists (c :: a), b, n.
      * intros (a & b & n & H & Hn). destruct a as [|x a].
        -- simpl in *. subst b. congruence.
        -- injection H as -> ->. now exists a, b, n.
Qed.

End Matching.

(** ** The substitution scan *)

Section Scan.
Context {U : Unicode}.
Variables (m : matcher) (r : str).

Lemma sub_from_skip s : forall k pw,
  sub_from m r k pw s
  = sub_from m r 0 (pw_after pw (firstn k s)) (skipn k s).
Proof.
  induction s as [|c s IH]; intros k pw.
  - destruct k; reflexivity.
  - destruct k as [|k]; [reflexivity|].
    simpl sub_from at 1. rewrite IH. reflexivity.
Qed.

Lemma sub_from_keep pw c s :
  (forall n, m pw (c :: s) <> Some (S n)) ->
  sub_from m r 0 pw (c :: s) = c :: sub_from m r 0 (is_word c) s.
Proof.
  intros H. simpl. destruct (m pw (c :: s)) as [[|n]|] eqn:E; try reflexivity.
  now destruct (H n).
Qed.

Lemma sub_from_match pw c s n :
  m pw (c :: s) = Some (S n) ->
  sub_from m r 0 pw (c :: s)
  = r ++ sub_from m r 0 (pw_after pw (firstn (S n) (c :: s)))
                        (skipn (S n) (c :: s)).
Proof.
  intros H. simpl sub_from. rewrite H, sub_from_skip. reflexivity.
Qed.

Lemma sub_from_match_app pw w b :
  w <> [] -> m pw (w ++ b) = Some (length w) ->
  sub_from m r 0 pw (w ++ b) = r ++ sub_from m r 0 (pw_after pw w) b.
Proof.
  intros Hne H. destruct w as [|c w]; [congruence|].
  change ((c :: w) ++ b) with (c :: w ++ b) in *.
  rewrite (sub_from_match pw c (w ++ b) (length w) H).
  change (S (length w)) with (length (c :: w)).
  change (c :: w ++ b) with ((c :: w) ++ b).
  rewrite firstn_app, Nat.sub_diag, firstn_all, app_nil_r.
  rewrite skipn_app, Nat.sub_diag, skipn_all. reflexivity.
Qed.

(** Induction along the scan: the subject is consumed one kept character
    or one match at a time. *)
Lemma sub_from_ind (P : bool -> str -> str -> Prop) :
  (forall pw, P pw [] []) ->
  (forall pw c s,
     (forall n, m pw (c :: s) <> Some (S n)) ->
     P (is_word c) s (sub_from m r 0 (is_word c) s) ->
     P pw (c :: s) (c :: sub_from m r 0 (is_word c) s)) ->
  (forall pw c s n,
     m pw (c :: s) = Some (S n) ->
     let w := firstn (S n) (c :: s) in
     let b := skipn (S n) (c :: s) in
     P (pw_after pw w) b (sub_from m r 0 (pw_after pw w) b) ->
     P pw (c :: s) (r ++ sub_from m r 0 (pw_after pw w) b)) ->
  forall s pw, P pw s (sub_from m r 0 pw s).
Proof.
  intros Hnil Hkeep Hmatch.
  assert (H : forall k s, length s <= k -> forall pw, P pw s (sub_from m r 0 pw s)).
  { induction k as [|k IH]; intros s Hk pw.
    - destruct s; [apply Hnil | simpl in Hk; lia].
    - destruct s as [|c s]; [apply Hnil|]. simpl in Hk.
      destruct (m pw (c :: s)) as [[|n]|] eqn:E.
      + rewrite sub_from_keep by (intros n; congruence).
        apply Hkeep; [intros n; congruence|]. apply IH. lia.
      + rewrite (sub_from_match _ _ _ _ E).
        apply (Hmatch _ _ _ _ E). apply IH.
        rewrite length_skipn. simpl. lia.
      + rewrite sub_from_keep by (intros n; congruence).
        apply Hkeep; [intros n; congruence|]. apply IH. lia. }
  intros s pw. now apply (H (length s)).
Qed.

End Scan.

(** ** Occurrences of a literal across a substitution *)

Section Occurrences.
Context {U : Unicode}.

Lemma lit_prefix_contains p s : lit_prefix N.eqb p s = true -> contains p s = true.
Proof. intros H. destruct s; simpl; rewrite H; reflexivity. Qed.

Lemma contains_app_l p x y : contains p x = true -> contains p (x ++ y) = true.
Proof.
  rewrite !contains_iff. intros (a & b & ->). exists a, (b ++ y).
  now rewrite <- !app_assoc.
Qed.

Lemma contains_app_r p x y : contains p y = true -> contains p (x ++ y) = true.
Proof.
  rewrite !contains_iff. intros (a & b & ->). exists (x ++ a), b.
  now rewrite <- !app_assoc.
Qed.

Lemma contains_cons p c s : contains p s = true -> contains p (c :: s) = true.
Proof. apply (contains_app_r p [c] s). Qed.

Lemma lit_prefix_app_cases p : forall a y,
  lit_prefix N.eqb p (a ++ y) = true ->
  lit_prefix N.eqb p a = true \/
  exists p2, p2 <> [] /\ p = a ++ p2 /\ lit_prefix N.eqb p2 y = true.
Proof.
  induction p as [|x p IH]; intros a y H.
  - left. reflexivity.
  - destruct a as [|c a].
    + right. exists (x :: p). repeat split; [discriminate | exact H].
    + simpl in H. apply andb_true_iff in H. destruct H as [Hx H].
      apply N.eqb_eq in Hx. subst c.
      destruct (IH _ _ H) as [Hl|(p2 & Hne & -> & Hp2)].
      * left. simpl. now rewrite N.eqb_refl.
      * right. exists p2. repeat split; assumption.
Qed.

Lemma mem_app c a b : mem c (a ++ b) = mem c a || mem c b.
Proof. apply existsb_app. Qed.

Lemma mem_last a : a <> [] -> mem (last a 0%N) a = true.
Proof.
  induction a as [|c a IH]; intros H; [congruence|].
  destruct a as [|d a].
  - simpl. now rewrite N.eqb_refl.
  - change (last (c :: d :: a) 0%N) with (last (d :: a) 0%N).
    change (mem ?x (c :: d :: a)) with ((x =? c)%N || mem x (d :: a)).
    rewrite IH by discriminate. apply orb_true_r.
Qed.

Lemma last_app_ne (a b : str) d : b <> [] -> last (a ++ b) d = last b d.
Proof.
  intros H. induction a as [|c a IH]; [reflexivity|].
  simpl app. destruct (a ++ b) eqn:E.
  - apply app_eq_nil in E. destruct E. congruence.
  - rewrite <- IH. reflexivity.
Qed.

Section Apart.
Variables p r : str.
Hypothesis Hapart : apart p r = true.

Lemma apart_inside : forall r2 r1 y,
  r = r1 ++ r2 -> contains p (r2 ++ y) = true -> contains p y = true.
Proof.
  induction r2 as [|c r2 IH]; intros r1 y Hr H; [exact H|].
  simpl in H. apply orb_true_iff in H. destruct H as [H|H].
  - exfalso. unfold apart in Hapart.
    destruct r as [|r0 [|r1' rr]] eqn:Er; try discriminate.
    rewrite !andb_true_iff, !negb_true_iff in Hapart.
    destruct Hapart as [[[_ _] Hlast] Hin].
    apply (lit_prefix_app_cases p (c :: r2) y) in H.
    destruct H as [H|(p2 & Hne & Hp & _)].
    + apply lit_prefix_contains in H.
      rewrite Hr, (contains_app_r p r1 _ H) in Hin. discriminate.
    + rewrite Hr, last_app_ne in Hlast by discriminate.
      rewrite Hp, mem_app, mem_last in Hlast by discriminate. discriminate.
  - apply (IH (r1 ++ [c])); [now rewrite <- app_assoc | exact H].
Qed.

Lemma apart_junction : forall x y,
  contains p (x ++ r ++ y) = true ->
  contains p x = true \/ contains p y = true.
Proof.
  induction x as [|c x IH]; intros y H.
  - right. apply (apart_inside r [] y); [reflexivity | exact H].
  - simpl in H. apply orb_true_iff in H. destruct H as [H|H].
    + apply (lit_prefix_app_cases p (c :: x) (r ++ y)) in H.
      destruct H as [H|(p2 & Hne & Hp & Hp2)].
      * left. now apply lit_prefix_contains.
      * exfalso. unfold apart in Hapart.
        destruct r as [|r0 [|r1 rr]]; try discriminate.
        rewrite !andb_true_iff, !negb_true_iff in Hapart.
        destruct Hapart as [[[Hend Hsnd] _] _].
        destruct p2 as [|a [|b p2]]; [congruence| |].
        -- simpl in Hp2. rewrite andb_true_r in Hp2. apply N.eqb_eq in Hp2.
           rewrite Hp, last_app_ne in Hend by discriminate. simpl in Hend.
           subst a. now rewrite N.eqb_refl in Hend.
        -- simpl in Hp2. rewrite !andb_true_iff in Hp2.
           destruct Hp2 as [_ [Hb _]]. apply N.eqb_eq in Hb. subst b.
           rewrite Hp, mem_app in Hsnd. simpl in Hsnd.
           rewrite N.eqb_refl, !orb_true_r in Hsnd. discriminate.
    + destruct (IH _ H) as [Hx|Hy]; [left; now apply contains_cons | now right].
Qed.

(** Replacing matches of any pattern by [r] creates no occurrence of [p]. *)
Lemma sub_no_new (m : matcher) s pw :
  forall x, contains p (x ++ sub_from m r 0 pw s) = true ->
            contains p (x ++ s) = true.
Proof.
  apply (@sub_from_ind U m r
    (fun pw s out => forall x, contains p (x ++ out) = true ->
                               contains p (x ++ s) = true)).
  - intros _ x H. exact H.
  - intros pw' c s' _ IH x H.
    replace (x ++ c :: s') with ((x ++ [c]) ++ s') by now rewrite <- app_assoc.
    apply IH. now rewrite <- app_assoc.
  - intros pw' c s' n _ w b IH x H.
    apply apart_junction in H. destruct H as [H|H].
    + now apply contains_app_l.
    + apply contains_app_r. rewrite <- (firstn_skipn (S n) (c :: s')).
      apply contains_app_r. apply (IH []). exact H.
Qed.

Lemma sub_avoids (m : matcher) s :
  contains p s = false -> contains p (re_sub m r s) = false.
Proof.
  intros H. destruct (contains p (re_sub m r s)) eqn:E; [|reflexivity].
  apply (sub_no_new m s false []) in E. simpl in E. congruence.
Qed.

(** Replacing the occurrences of [p] itself leaves none. *)
Lemma sub_removes s pw :
  forall x,
    (forall x1 x2, x = x1 ++ x2 -> x2 <> [] ->
                   lit_prefix N.eqb p (x2 ++ s) = false) ->
    contains p (x ++ sub_from (re_lit N.eqb p) r 0 pw s) = false.
Proof.
  assert (Hp : p <> []).
  { intros ->. unfold apart in Hapart. destruct r as [|? [|? ?]]; try discriminate.
    simpl in Hapart. rewrite !andb_false_r in Hapart. discriminate. }
  assert (Hzone : forall x z,
    (forall x1 x2, x = x1 ++ x2 -> x2 <> [] ->
                   lit_prefix N.eqb p (x2 ++ z) = false) ->
    contains p x = false).
  { intros x z Hx. destruct (contains p x) eqn:E; [|reflexivity].
    apply contains_iff in E. destruct E as (a & b & ->).
    assert (Hne : p ++ b <> []) by (destruct p; [congruence | discriminate]).
    pose proof (Hx a (p ++ b) eq_refl Hne) as Hf.
    rewrite <- app_assoc, lit_prefix_app in Hf. discriminate. }
  apply (@sub_from_ind U (re_lit N.eqb p) r
    (fun pw s out => forall x,
       (forall x1 x2, x = x1 ++ x2 -> x2 <> [] ->
                      lit_prefix N.eqb p (x2 ++ s) = false) ->
       contains p (x ++ out) = false)).
  - intros _ x Hx. rewrite app_nil_r. apply (Hzone x []). exact Hx.
  - intros pw' c s' Hm IH x Hx.
    replace (x ++ c :: sub_from (re_lit N.eqb p) r 0 (is_word c) s')
      with ((x ++ [c]) ++ sub_from (re_lit N.eqb p) r 0 (is_word c) s')
      by now rewrite <- app_assoc.
    apply IH. intros x1 x2 E Hne.
    destruct (exists_last Hne) as (x2' & d & ->).
    rewrite app_assoc in E. apply app_inj_tail in E. destruct E as [-> <-].
    rewrite <- app_assoc. simpl.
    destruct x2' as [|e x2'].
    + simpl. unfold re_lit in Hm.
      destruct (lit_prefix N.eqb p (c :: s')) eqn:E; [|reflexivity].
      destruct p as [|a p']; [congruence|]. now destruct (Hm (length p')).
    + apply (Hx x1 (e :: x2') eq_refl). discriminate.
  - intros pw' c s' n Hm w b IH x Hx.
    destruct (contains p (x ++ r ++ _)) eqn:E; [|reflexivity].
    apply apart_junction in E. destruct E as [E|E].
    + rewrite (Hzone x (c :: s') Hx) in E. discriminate.
    + assert (Hb : contains p ([] ++ sub_from (re_lit N.eqb p) r 0 (pw_after pw' w) b) = false).
      { apply IH. intros x1 x2 E' Hne. symmetry in E'. apply app_eq_nil in E'.
        destruct E'. congruence. }
      cbn [app] in Hb. congruence.
Qed.

Lemma replace_removes s : contains p (replace p r s) = false.
Proof.
  apply (sub_removes s false []). intros x1 x2 E Hne.
  symmetry in E. apply app_eq_nil in E. destruct E. congruence.
Qed.

End Apart.

(** Without an occurrence, replacing is the identity. *)
Lemma replace_absent p r s : contains p s = false -> replace p r s = s.
Proof.
  unfold replace, re_sub. generalize false at 2.
  induction s as [|c s IH]; intros pw H; [reflexivity|].
  simpl in H. apply orb_false_iff in H. destruct H as [Hp Hs].
  rewrite sub_from_keep.
  - rewrite IH by assumption. reflexivity.
  - intros n. unfold re_lit. rewrite Hp. discriminate.
Qed.

End Occurrences.

(** ** Word-bounded substitutions rewrite word by word *)

Section Words.
Context {U : Unicode}.

Lemma all_word_app a b : all_word (a ++ b) = all_word a && all_word b.
Proof. apply forallb_app. Qed.

Lemma pw_after_word pw t : all_word t = true -> t <> [] -> pw_after pw t = true.
Proof.
  intros Ht Hne. destruct (exists_last Hne) as (t' & c & ->).
  rewrite pw_after_snoc. rewrite all_word_app in Ht.
  apply andb_true_iff in Ht. destruct Ht as [_ Ht]. simpl in Ht.
  now rewrite andb_true_r in Ht.
Qed.

Lemma hd_word_app t b :
  all_word t = true -> hd_word b = false ->
  hd_word (t ++ b) = negb (length t =? 0).
Proof.
  intros Ht Hb. destruct t as [|c t]; [exact Hb|].
  simpl in *. apply andb_true_iff in Ht. now destruct Ht as [-> _].
Qed.

Section Alternatives.
Variable ceq : char -> char -> bool.

Lemma alt_at_token a : forall t b pw,
  (forall x c, In x a -> ceq x c = true -> is_word c = true) ->
  all_word t = true -> hd_word b = false ->
  a <> [] \/ pw = true ->
  lit_prefix ceq a (t ++ b)
  && boundary (pw_after pw (firstn (length a) (t ++ b)))
              (skipn (length a) (t ++ b))
  = exact ceq a t.
Proof.
  unfold exact.
  induction a as [|x a IH]; intros t b pw Ha Ht Hb Hpw.
  - destruct Hpw as [Hpw | ->]; [congruence|].
    simpl. unfold boundary. rewrite (hd_word_app t b Ht Hb).
    destruct t; reflexivity.
  - destruct t as [|c t].
    + simpl app. replace (lit_prefix ceq (x :: a) b) with false; [reflexivity|].
      destruct b as [|d b]; [reflexivity|]. simpl.
      destruct (ceq x d) eqn:E; [|reflexivity].
      simpl in Hb. rewrite (Ha x d (or_introl eq_refl) E) in Hb. discriminate.
    + simpl in Ht. apply andb_true_iff in Ht. destruct Ht as [Hc Ht].
      simpl. rewrite Hc.
      rewrite <- !andb_assoc. f_equal.
      apply IH; auto.
      intros y d Hy. apply Ha. now right.
Qed.

Lemma first_alt_token_gen l t b :
  Forall (wordy ceq) l ->
  all_word t = true -> hd_word b = false ->
  first_alt ceq l false (t ++ b)
  = if tok_match ceq l t then Some (length t) else None.
Proof.
  intros Hl Ht Hb. unfold tok_match.
  induction Hl as [|a l [Hne Ha] _ IH]; [reflexivity|].
  simpl. rewrite (alt_at_token a t b false Ha Ht Hb (or_introl Hne)).
  destruct (exact ceq a t) eqn:E.
  - simpl. unfold exact in E. apply andb_true_iff in E.
    destruct E as [_ E]. apply Nat.eqb_eq in E. now rewrite E.
  - simpl. exact IH.
Qed.

Lemma first_alt_miss_gen l pw c s :
  Forall (wordy ceq) l ->
  is_word c = false -> first_alt ceq l pw (c :: s) = None.
Proof.
  intros Hl Hc. induction Hl as [|a l [Hne Ha] _ IH]; [reflexivity|].
  simpl. destruct a as [|x a]; [congruence|]. simpl.
  destruct (ceq x c) eqn:E.
  - rewrite (Ha x c (or_introl eq_refl) E) in Hc. discriminate.
  - exact IH.
Qed.

Lemma tok_match_nil_gen l : Forall (wordy ceq) l -> tok_match ceq l [] = false.
Proof.
  unfold tok_match. intros Hl.
  induction Hl as [|a l [Hne _] _ IH]; [reflexivity|].
  simpl. rewrite IH. destruct a; [congruence | reflexivity].
Qed.

Variable alts : list str.
Hypothesis Halts : Forall (wordy ceq) alts.

Lemma first_alt_token t b :
  all_word t = true -> hd_word b = false ->
  first_alt ceq alts false (t ++ b)
  = if tok_match ceq alts t then Some (length t) else None.
Proof. now apply first_alt_token_gen. Qed.

Lemma re_word_token t b :
  all_word t = true -> t <> [] -> hd_word b = false ->
  re_word ceq alts false (t ++ b)
  = if tok_match ceq alts t then Some (length t) else None.
Proof.
  intros Ht Hne Hb. unfold re_word, boundary.
  rewrite (hd_word_app t b Ht Hb). destruct t; [congruence|].
  simpl negb. cbv iota. simpl xorb. cbv iota.
  now apply first_alt_token.
Qed.

Lemma first_alt_miss pw c s :
  is_word c = false -> first_alt ceq alts pw (c :: s) = None.
Proof. now apply first_alt_miss_gen. Qed.

Lemma re_word_nonword pw c s :
  is_word c = false -> re_word ceq alts pw (c :: s) = None.
Proof.
  intros Hc. unfold re_word. rewrite first_alt_miss by assumption.
  now destruct (boundary pw (c :: s)).
Qed.

Lemma re_word_inside c s :
  is_word c = true -> re_word ceq alts true (c :: s) = None.
Proof. intros Hc. unfold re_word, boundary. simpl. now rewrite Hc. Qed.

Variable r : str.

Lemma sub_inside t : forall b,
  all_word t = true ->
  sub_from (re_word ceq alts) r 0 true (t ++ b)
  = t ++ sub_from (re_word ceq alts) r 0 true b.
Proof.
  induction t as [|c t IH]; intros b Ht; [reflexivity|].
  simpl in Ht. apply andb_true_iff in Ht. destruct Ht as [Hc Ht].
  simpl app. rewrite sub_from_keep.
  - rewrite Hc, IH by assumption. reflexivity.
  - intros n. now rewrite re_word_inside.
Qed.

Lemma sub_token t b :
  all_word t = true -> t <> [] -> hd_word b = false ->
  sub_from (re_word ceq alts) r 0 false (t ++ b)
  = tok_sub ceq alts r t ++ sub_from (re_word ceq alts) r 0 true b.
Proof.
  intros Ht Hne Hb. pose proof (re_word_token t b Ht Hne Hb) as Hm.
  unfold tok_sub. destruct t as [|c t]; [congruence|].
  destruct (tok_match ceq alts (c :: t)).
  - rewrite sub_from_match_app by assumption.
    rewrite (pw_after_word false _ Ht) by discriminate. reflexivity.
  - simpl app in *. rewrite sub_from_keep by (intros n; congruence).
    simpl in Ht. apply andb_true_iff in Ht. destruct Ht as [Hc Ht].
    rewrite Hc, sub_inside by assumption. reflexivity.
Qed.

Lemma sub_nonword pw c s :
  is_word c = false ->
  sub_from (re_word ceq alts) r 0 pw (c :: s)
  = c :: sub_from (re_word ceq alts) r 0 false s.
Proof.
  intros Hc. rewrite sub_from_keep.
  - now rewrite Hc.
  - intros n. now rewrite re_word_nonword.
Qed.

Lemma tok_match_nil : tok_match ceq alts [] = false.
Proof. now apply tok_match_nil_gen. Qed.

Lemma sub_is_tok s : forall cur,
  all_word cur = true ->
  sub_from (re_word ceq alts) r 0 false (cur ++ s)
  = sub_tok (tok_sub ceq alts r) cur s.
Proof.
  assert (Hnil : tok_sub ceq alts r [] = []).
  { unfold tok_sub. now rewrite tok_match_nil. }
  induction s as [|c s IH]; intros cur Hcur.
  - rewrite app_nil_r. simpl. destruct cur as [|d cur].
    + now rewrite Hnil.
    + rewrite <- (app_nil_r (d :: cur)) at 1.
      rewrite sub_token by (assumption || discriminate || reflexivity).
      now rewrite app_nil_r.
  - simpl. destruct (is_word c) eqn:Hc.
    + rewrite <- IH.
      * now rewrite <- app_assoc.
      * rewrite all_word_app, Hcur. simpl. now rewrite Hc.
    + rewrite <- (IH []) by reflexivity. simpl app.
      destruct cur as [|d cur].
      * rewrite Hnil. simpl. now apply sub_nonword.
      * rewrite sub_token by (assumption || discriminate || exact Hc).
        now rewrite sub_nonword.
Qed.

(** A word-bounded substitution rewrites each word on its own. *)
Lemma re_sub_is_tok s :
  re_sub (re_word ceq alts) r s = sub_tok (tok_sub ceq alts r) [] s.
Proof. unfold re_sub. now rewrite <- sub_is_tok. Qed.

End Alternatives.

End Words.

(** ** Algebra of word-by-word rewriting *)

Section Tokens.
Context {U : Unicode}.

Lemma sub_tok_word f t : forall cur s,
  all_word t = true -> sub_tok f cur (t ++ s) = sub_tok f (cur ++ t) s.
Proof.
  induction t as [|c t IH]; intros cur s Ht.
  - now rewrite app_nil_r.
  - simpl in Ht. apply andb_true_iff in Ht. destruct Ht as [Hc Ht].
    simpl. rewrite Hc, IH by assumption. now rewrite <- app_assoc.
Qed.

Lemma sub_tok_flush f t : all_word t = true -> sub_tok f [] t = f t.
Proof.
  intros Ht. rewrite <- (app_nil_r t) at 1.
  rewrite sub_tok_word by assumption. reflexivity.
Qed.

Lemma all_word_snoc cur c :
  all_word cur = true -> is_word c = true -> all_word (cur ++ [c]) = true.
Proof. intros H Hc. rewrite all_word_app, H. simpl. now rewrite Hc. Qed.

(** Two rewritings in a row are one rewriting by the composed function,
    as long as the first one turns words into words. *)
Lemma sub_tok_comp f g :
  (forall t, all_word t = true -> all_word (f t) = true) ->
  forall s cur, all_word cur = true ->
  sub_tok g [] (sub_tok f cur s) = sub_tok (fun t => g (f t)) cur s.
Proof.
  intros Hf. induction s as [|c s IH]; intros cur Hcur; simpl.
  - apply sub_tok_flush. now apply Hf.
  - destruct (is_word c) eqn:Hc.
    + apply IH. now apply all_word_snoc.
    + rewrite sub_tok_word by now apply Hf.
      simpl. rewrite Hc, IH by reflexivity. reflexivity.
Qed.

Lemma sub_tok_ext f g :
  (forall t, all_word t = true -> f t = g t) ->
  forall s cur, all_word cur = true -> sub_tok f cur s = sub_tok g cur s.
Proof.
  intros Hfg. induction s as [|c s IH]; intros cur Hcur; simpl.
  - now apply Hfg.
  - destruct (is_word c) eqn:Hc.
    + apply IH. now apply all_word_snoc.
    + rewrite Hfg, IH by (assumption || reflexivity). reflexivity.
Qed.

Lemma sub_tok_fixed f : forall s cur,
  all_tok (fun t => f t = t) cur s -> sub_tok f cur s = cur ++ s.
Proof.
  induction s as [|c s IH]; intros cur H; simpl in *.
  - now rewrite app_nil_r.
  - destruct (is_word c).
    + rewrite IH by assumption. now rewrite <- app_assoc.
    + destruct H as [-> H]. now rewrite (IH [] H).
Qed.

Lemma all_tok_word P t : forall cur s,
  all_word t = true -> (all_tok P cur (t ++ s) <-> all_tok P (cur ++ t) s).
Proof.
  induction t as [|c t IH]; intros cur s Ht.
  - now rewrite app_nil_r.
  - simpl in Ht. apply andb_true_iff in Ht. destruct Ht as [Hc Ht].
    simpl. rewrite Hc, IH by assumption. now rewrite <- app_assoc.
Qed.

Lemma all_tok_any s : forall cur, all_tok (fun _ => True) cur s.
Proof.
  induction s as [|c s IH]; intros cur; simpl; [exact I|].
  destruct (is_word c); [apply IH | split; [exact I | apply IH]].
Qed.

(** The words of a rewritten string are the images of the words of the
    subject. *)
Lemma all_tok_sub (P Q : str -> Prop) g :
  (forall t, all_word t = true -> Q t -> P (g t)) ->
  (forall t, all_word t = true -> all_word (g t) = true) ->
  forall s cur, all_word cur = true ->
  all_tok Q cur s -> all_tok P [] (sub_tok g cur s).
Proof.
  intros HP Hg. induction s as [|c s IH]; intros cur Hcur H; simpl in *.
  - rewrite <- (app_nil_r (g cur)).
    apply all_tok_word; [now apply Hg|]. simpl. now apply HP.
  - destruct (is_word c) eqn:Hc.
    + apply IH; [now apply all_word_snoc | assumption].
    + destruct H as [Hq H]. apply all_tok_word; [now apply Hg|].
      simpl. rewrite Hc. split; [now apply HP | now apply IH].
Qed.

Lemma all_tok_weaken (P Q : str -> Prop) :
  (forall t, P t -> Q t) ->
  forall s cur, all_tok P cur s -> all_tok Q cur s.
Proof.
  intros HPQ. induction s as [|c s IH]; intros cur H; simpl in *.
  - now apply HPQ.
  - destruct (is_word c); [now apply IH|].
    destruct H as [H1 H2]. split; [now apply HPQ | now apply IH].
Qed.

End Tokens.

(** ** Whitespace *)

Section Spaces.
Context {U : Unicode}.

Lemma is_space_nonword c : is_space c = true -> is_word c = false.
Proof.
  intros H. unfold is_word. rewrite (alnum_space c H). simpl.
  apply N.eqb_neq. apply is_space_cases in H. lia.
Qed.

Lemma span_space_zero c s : span_space (c :: s) = 0 -> is_space c = false.
Proof. simpl. destruct (is_space c); [discriminate | reflexivity]. Qed.

Lemma span_space_split s :
  forallb is_space (firstn (span_space s) s) = true
  /\ hd_space (skipn (span_space s) s) = false.
Proof.
  induction s as [|c s [IH1 IH2]]; [split; reflexivity|].
  simpl. destruct (is_space c) eqn:Hc.
  - simpl. rewrite Hc, IH1. split; [reflexivity | exact IH2].
  - simpl. split; [reflexivity | exact Hc].
Qed.

Lemma re_spaces_some pw s n : re_spaces pw s = Some n -> n = span_space s /\ n <> 0.
Proof.
  unfold re_spaces. destruct (span_space s); [discriminate|].
  intros H. injection H as <-. split; [reflexivity | discriminate].
Qed.

Lemma re_spaces_none pw c s :
  (forall n, re_spaces pw (c :: s) <> Some (S n)) -> is_space c = false.
Proof.
  intros H. apply (span_space_zero c s).
  unfold re_spaces in H. destruct (span_space (c :: s)) as [|k]; [reflexivity|].
  now destruct (H k).
Qed.

Lemma all_tok_skip_spaces P w : forall b,
  forallb is_space w = true -> all_tok P [] (w ++ b) -> all_tok P [] b.
Proof.
  induction w as [|c w IH]; intros b Hw H; [exact H|].
  simpl in Hw. apply andb_true_iff in Hw. destruct Hw as [Hc Hw].
  simpl in H. rewrite (is_space_nonword c Hc) in H. destruct H as [_ H].
  now apply IH.
Qed.

Lemma all_tok_prefix P a : forall cur tl,
  forallb is_space tl = true -> all_tok P cur (a ++ tl) -> all_tok P cur a.
Proof.
  induction a as [|c a IH]; intros cur tl Htl H.
  - simpl in *. destruct tl as [|d tl]; [exact H|].
    simpl in Htl. apply andb_true_iff in Htl. destruct Htl as [Hd _].
    simpl in H. rewrite (is_space_nonword d Hd) in H. now destruct H.
  - simpl in *. destruct (is_word c).
    + now apply (IH _ tl).
    + destruct H as [H1 H2]. split; [exact H1 | now apply (IH _ tl)].
Qed.

Lemma lstrip_split s :
  exists hd, s = hd ++ lstrip s /\ forallb is_space hd = true.
Proof.
  induction s as [|c s (hd & Hs & Hhd)].
  - now exists [].
  - simpl. destruct (is_space c) eqn:Hc.
    + exists (c :: hd). simpl. rewrite Hc, Hhd. split; [now f_equal | reflexivity].
    + now exists [].
Qed.

Lemma rstrip_split s :
  exists tl, s = rstrip s ++ tl /\ forallb is_space tl = true.
Proof.
  unfold rstrip. destruct (lstrip_split (rev s)) as (hd & Hs & Hhd).
  exists (rev hd). split.
  - rewrite <- rev_app_distr, <- Hs. now rewrite rev_involutive.
  - apply forallb_forall. intros x Hx. apply in_rev in Hx.
    now apply (proj1 (forallb_forall _ _) Hhd).
Qed.

Lemma lstrip_hd s : hd_space (lstrip s) = false.
Proof.
  induction s as [|c s IH]; [reflexivity|].
  simpl. destruct (is_space c) eqn:Hc; [exact IH | exact Hc].
Qed.

Lemma lstrip_fixed s : hd_space s = false -> lstrip s = s.
Proof. destruct s as [|c s]; [reflexivity|]. simpl. now intros ->. Qed.

Lemma rstrip_idem s : rstrip (rstrip s) = rstrip s.
Proof.
  unfold rstrip. rewrite rev_involutive.
  now rewrite (lstrip_fixed _ (lstrip_hd (rev s))).
Qed.

Lemma rstrip_hd s : hd_space s = false -> hd_space (rstrip s) = false.
Proof.
  intros H. destruct (rstrip_split s) as (tl & Hs & _).
  destruct (rstrip s) as [|c t]; [reflexivity|].
  rewrite Hs in H. exact H.
Qed.

Lemma strip_idem s : strip (strip s) = strip s.
Proof.
  unfold strip.
  rewrite (lstrip_fixed (rstrip (lstrip s))) by (apply rstrip_hd, lstrip_hd).
  apply rstrip_idem.
Qed.

Lemma all_tok_strip P s : all_tok P [] s -> all_tok P [] (strip s).
Proof.
  intros H. unfold strip.
  destruct (rstrip_split (lstrip s)) as (tl & Hs & Htl).
  apply (all_tok_prefix P _ [] tl Htl). rewrite <- Hs.
  destruct (lstrip_split s) as (hd & Hs' & Hhd).
  apply (all_tok_skip_spaces P hd); [assumption|]. now rewrite <- Hs'.
Qed.

Lemma spaced_lstrip s : spaced s -> spaced (lstrip s).
Proof.
  induction s as [|c s IH]; intros H; [exact I|].
  simpl. destruct (is_space c); [apply IH; now destruct H | exact H].
Qed.

Lemma spaced_prefix a : forall b, spaced (a ++ b) -> spaced a.
Proof.
  induction a as [|c a IH]; intros b H; [exact I|].
  simpl in *. destruct H as [H1 H2]. split; [|now apply (IH b)].
  intros Hc. destruct (H1 Hc) as [-> Hh]. split; [reflexivity|].
  destruct a; [reflexivity | exact Hh].
Qed.

Lemma spaced_strip s : spaced s -> spaced (strip s).
Proof.
  intros H. unfold strip.
  destruct (rstrip_split (lstrip s)) as (tl & Hs & _).
  apply (spaced_prefix _ tl). rewrite <- Hs. now apply spaced_lstrip.
Qed.

Lemma collapse_from_spaced s pw :
  spaced (sub_from re_spaces [32%N] 0 pw s)
  /\ (hd_space s = false ->
      hd_space (sub_from re_spaces [32%N] 0 pw s) = false).
Proof.
  apply (@sub_from_ind U re_spaces [32%N]
    (fun pw s out => spaced out /\ (hd_space s = false -> hd_space out = false))).
  - intros _. split; [exact I | reflexivity].
  - intros pw' c s' Hm [IH1 IH2].
    pose proof (re_spaces_none pw' c s' Hm) as Hc.
    split; [|intros _; exact Hc].
    simpl. split; [|exact IH1]. rewrite Hc. discriminate.
  - intros pw' c s' n Hm w b [IH1 IH2].
    apply re_spaces_some in Hm. destruct Hm as [Hn _].
    destruct (span_space_split (c :: s')) as [Hw Hb].
    rewrite <- Hn in Hw, Hb. fold w in Hw. fold b in Hb.
    split.
    + simpl. split; [|exact IH1]. intros _. split; [reflexivity | now apply IH2].
    + intros Hc. exfalso. unfold w in Hw. simpl in Hw, Hc.
      rewrite Hc in Hw. discriminate.
Qed.

Lemma collapse_spaced s : spaced (collapse s).
Proof. apply collapse_from_spaced. Qed.

Lemma spaced_collapse_from s : forall pw,
  spaced s -> sub_from re_spaces [32%N] 0 pw s = s.
Proof.
  induction s as [|c s IH]; intros pw H; [reflexivity|].
  destruct H as [H1 H2]. destruct (is_space c) eqn:Hc.
  - destruct (H1 eq_refl) as [-> Hh].
    rewrite (sub_from_match_app re_spaces [32%N] pw [32%N] s).
    + now rewrite IH.
    + discriminate.
    + unfold re_spaces. simpl span_space.
      destruct s as [|d s]; [reflexivity|]. simpl in Hh. simpl. now rewrite Hh.
  - rewrite sub_from_keep.
    + now rewrite IH.
    + intros n Hn. apply re_spaces_some in Hn. destruct Hn as [Hn _].
      simpl in Hn. rewrite Hc in Hn. discriminate.
Qed.

Lemma spaced_collapse s : spaced s -> collapse s = s.
Proof. apply spaced_collapse_from. Qed.

(** Collapsing and trimming twice is collapsing and trimming once. *)
Lemma cleanup_idem s :
  strip (collapse (strip (collapse s))) = strip (collapse s).
Proof.
  rewrite (spaced_collapse (strip (collapse s))).
  - apply strip_idem.
  - apply spaced_strip, collapse_spaced.
Qed.

Lemma all_tok_collapse_from P s pw :
  forall cur, all_tok P cur s ->
              all_tok P cur (sub_from re_spaces [32%N] 0 pw s).
Proof.
  apply (@sub_from_ind U re_spaces [32%N]
    (fun pw s out => forall cur, all_tok P cur s -> all_tok P cur out)).
  - intros _ cur H. exact H.
  - intros pw' c s' _ IH cur H. simpl in *.
    destruct (is_word c); [now apply IH|].
    destruct H as [H1 H2]. split; [exact H1 | now apply IH].
  - intros pw' c s' n Hm w b IH cur H.
    apply re_spaces_some in Hm. destruct Hm as [Hn _].
    destruct (span_space_split (c :: s')) as [Hw Hb].
    rewrite <- Hn in Hw. fold w in Hw.
    assert (Hc : is_space c = true).
    { unfold w in Hw. simpl in Hw. now apply andb_true_iff in Hw. }
    simpl in H. rewrite (is_space_nonword c Hc) in H. destruct H as [H1 H2].
    simpl. rewrite (is_space_nonword 32%N eq_refl). split; [exact H1|].
    apply IH. apply (all_tok_skip_spaces P (firstn n s')).
    + unfold w in Hw. simpl in Hw. now apply andb_true_iff in Hw.
    + unfold b. simpl skipn. now rewrite firstn_skipn.
Qed.

Lemma all_tok_collapse P s : all_tok P [] s -> all_tok P [] (collapse s).
Proof. apply all_tok_collapse_from. Qed.

End Spaces.

(** ** The patterns of the three cleanup functions *)

Section Patterns.
Context {U : Unicode}.

Lemma ascii_word_word c : ascii_word c = true -> is_word c = true.
Proof.
  unfold ascii_word, is_word. rewrite andb_true_iff, N.ltb_lt.
  intros [Hc H]. now rewrite (alnum_ascii c Hc).
Qed.

Lemma all_word_ascii t : forallb ascii_word t = true -> all_word t = true.
Proof.
  unfold all_word. rewrite !forallb_forall. intros H x Hx.
  apply ascii_word_word. now apply H.
Qed.

Lemma ci_eq_cases x c :
  ci_letter x = true -> ci_eq x c = true ->
  ((65 <= c <= 90) \/ (97 <= c <= 122)
   \/ c = 220 \/ c = 252 \/ c = 304 \/ c = 305 \/ c = 383 \/ c = 8490)%N.
Proof.
  unfold ci_letter, ci_eq, fold_ascii, ascii_upper, ascii_lower.
  destruct ((65 <=? x) && (x <=? 90))%N eqn:Hx;
    [ apply andb_true_iff in Hx; rewrite !N.leb_le in Hx
    | apply andb_false_iff in Hx; rewrite !N.leb_gt in Hx ];
    (destruct ((65 <=? c) && (c <=? 90))%N eqn:Hc;
     [ apply andb_true_iff in Hc; rewrite !N.leb_le in Hc
     | apply andb_false_iff in Hc; rewrite !N.leb_gt in Hc ]);
    repeat first [ rewrite orb_true_iff | rewrite andb_true_iff
                 | rewrite N.eqb_eq | rewrite N.leb_le | rewrite N.ltb_lt ];
    intros [[[H0|H0]|H0]|H0] H; try discriminate H0; lia.
Qed.

Lemma ci_eq_word x c :
  ci_letter x = true -> ci_eq x c = true -> is_word c = true.
Proof.
  intros Hx Hc. pose proof (ci_eq_cases x c Hx Hc) as H.
  unfold is_word.
  destruct H as [H|[H|H]].
  - rewrite alnum_ascii by lia.
    unfold ascii_alnum, ascii_digit, ascii_upper, ascii_lower.
    decide_cmp. reflexivity.
  - rewrite alnum_ascii by lia.
    unfold ascii_alnum, ascii_digit, ascii_upper, ascii_lower.
    decide_cmp. reflexivity.
  - rewrite alnum_cased; [reflexivity|]. simpl. lia.
Qed.

Lemma wordy_ci a : a <> [] -> forallb ci_letter a = true -> wordy ci_eq a.
Proof.
  intros Hne Ha. split; [exact Hne|]. intros x c Hx.
  apply ci_eq_word. now apply (proj1 (forallb_forall _ _) Ha).
Qed.

Lemma wordy_eqb a : a <> [] -> forallb ascii_word a = true -> wordy N.eqb a.
Proof.
  intros Hne Ha. split; [exact Hne|]. intros x c Hx Hc.
  apply N.eqb_eq in Hc. subst c. apply ascii_word_word.
  now apply (proj1 (forallb_forall _ _) Ha).
Qed.

Lemma style_wordy : Forall (wordy ci_eq) style_alts.
Proof. repeat constructor; apply wordy_ci; (discriminate || reflexivity). Qed.

Lemma kebap_wordy : Forall (wordy ci_eq) kebap_alts.
Proof. repeat constructor; apply wordy_ci; (discriminate || reflexivity). Qed.

Lemma STIL_wordy : Forall (wordy N.eqb) [u "STIL"].
Proof. repeat constructor; apply wordy_eqb; (discriminate || reflexivity). Qed.

Lemma Stil_wordy : Forall (wordy N.eqb) [u "Stil"].
Proof. repeat constructor; apply wordy_eqb; (discriminate || reflexivity). Qed.

Lemma tok_sub_word ceq alts r t :
  all_word r = true -> all_word t = true -> all_word (tok_sub ceq alts r t) = true.
Proof. intros Hr Ht. unfold tok_sub. now destruct (tok_match ceq alts t). Qed.

Lemma style_word_word t : all_word t = true -> all_word (style_word t) = true.
Proof. apply tok_sub_word. now apply all_word_ascii. Qed.

Lemma kebap_word_word t : all_word t = true -> all_word (kebap_word t) = true.
Proof. apply tok_sub_word. now apply all_word_ascii. Qed.

(** *** English *)

Lemma improve_english_eq s :
  improve_english s = re_sub (re_word ci_eq kebap_alts) (u "Kebab") (english s).
Proof. destruct s; reflexivity. Qed.

Lemma words_idem t :
  kebap_word (style_word (kebap_word (style_word t))) = kebap_word (style_word t).
Proof.
  unfold kebap_word, style_word, tok_sub.
  destruct (tok_match ci_eq style_alts t) eqn:A.
  - reflexivity.
  - destruct (tok_match ci_eq kebap_alts t) eqn:B.
    + reflexivity.
    + now rewrite A, B.
Qed.

Lemma words_twice s :
  sub_tok kebap_word []
    (sub_tok style_word [] (sub_tok kebap_word [] (sub_tok style_word [] s)))
  = sub_tok kebap_word [] (sub_tok style_word [] s).
Proof.
  rewrite (sub_tok_comp style_word kebap_word style_word_word s [] eq_refl).
  rewrite (sub_tok_comp style_word kebap_word style_word_word _ [] eq_refl).
  rewrite (sub_tok_comp (fun t => kebap_word (style_word t))
             (fun t => kebap_word (style_word t))).
  - apply sub_tok_ext; [|reflexivity]. intros t _. apply words_idem.
  - intros t Ht. now apply kebap_word_word, style_word_word.
  - reflexivity.
Qed.

Lemma improve_english_idem s :
  improve_english (improve_english s) = improve_english s.
Proof.
  rewrite !improve_english_eq.
  set (p1 := u "SAUTEED OF SHRIMP"). set (p2 := u "ADANA STYLE KEBAP").
  set (p3 := u "ADANA STIL KEBAP").
  set (t1 := replace p3 (u "Adana Style Kebab")
               (replace p2 (u "Adana Style Kebab")
                  (replace p1 (u "Sauteed Shrimp") s))).
  assert (H1 : contains p1 t1 = false).
  { unfold t1, replace. do 2 (apply sub_avoids; [reflexivity|]).
    now apply replace_removes. }
  assert (H2 : contains p2 t1 = false).
  { unfold t1, replace at 1. apply sub_avoids; [reflexivity|].
    now apply replace_removes. }
  assert (H3 : contains p3 t1 = false) by now apply replace_removes.
  set (t3 := re_sub (re_word ci_eq kebap_alts) (u "Kebab") (english s)).
  assert (K1 : contains p1 t3 = false)
    by (unfold t3, english; do 2 (apply sub_avoids; [reflexivity|]); exact H1).
  assert (K2 : contains p2 t3 = false)
    by (unfold t3, english; do 2 (apply sub_avoids; [reflexivity|]); exact H2).
  assert (K3 : contains p3 t3 = false)
    by (unfold t3, english; do 2 (apply sub_avoids; [reflexivity|]); exact H3).
  unfold english at 1. fold p1 p2 p3.
  rewrite (replace_absent p1 _ t3 K1), (replace_absent p2 _ t3 K2),
          (replace_absent p3 _ t3 K3).
  unfold t3, english. fold p1 p2 p3 t1.
  rewrite !(re_sub_is_tok ci_eq style_alts style_wordy),
          !(re_sub_is_tok ci_eq kebap_alts kebap_wordy).
  apply words_twice.
Qed.

(** *** Russian and German *)

Lemma improve_russian_eq s : improve_russian s = strip (collapse s).
Proof. destruct s; reflexivity. Qed.

Lemma improve_russian_idem s :
  improve_russian (improve_russian s) = improve_russian s.
Proof. rewrite !improve_russian_eq. apply cleanup_idem. Qed.

Lemma improve_german_eq s : improve_german s = strip (collapse (german s)).
Proof. destruct s; reflexivity. Qed.

Lemma drop_fixed ceq alts t :
  tok_match ceq alts [] = false ->
  tok_sub ceq alts [] (tok_sub ceq alts [] t) = tok_sub ceq alts [] t.
Proof.
  intros Hnil. unfold tok_sub at 2 3. destruct (tok_match ceq alts t) eqn:E.
  - unfold tok_sub. now rewrite Hnil.
  - unfold tok_sub. now rewrite E.
Qed.

Lemma drop_keeps ceq alts ceq' alts' t :
  tok_match ceq alts [] = false ->
  tok_sub ceq alts [] t = t ->
  tok_sub ceq alts [] (tok_sub ceq' alts' [] t) = tok_sub ceq' alts' [] t.
Proof.
  intros Hnil Ht. unfold tok_sub at 2 3. destruct (tok_match ceq' alts' t).
  - unfold tok_sub. now rewrite Hnil.
  - exact Ht.
Qed.

Lemma drop_word ceq alts t :
  all_word t = true -> all_word (tok_sub ceq alts [] t) = true.
Proof. now apply tok_sub_word. Qed.

(** After the German cleanup no word is [STIL] or [Stil]. *)
Lemma german_words s :
  all_tok (fun t => drop_STIL t = t) [] (improve_german s)
  /\ all_tok (fun t => drop_Stil t = t) [] (improve_german s).
Proof.
  rewrite improve_german_eq. unfold german.
  rewrite (re_sub_is_tok N.eqb [u "Stil"] Stil_wordy),
          (re_sub_is_tok N.eqb [u "STIL"] STIL_wordy).
  fold drop_STIL drop_Stil. split.
  - apply all_tok_strip, all_tok_collapse.
    apply (all_tok_sub (fun t => drop_STIL t = t) (fun t => drop_STIL t = t));
      [| apply drop_word | reflexivity |].
    + intros t _ Ht. now apply drop_keeps.
    + apply (all_tok_sub _ (fun _ => True));
        [| apply drop_word | reflexivity | apply all_tok_any].
      intros t _ _. now apply drop_fixed.
  - apply all_tok_strip, all_tok_collapse.
    apply (all_tok_sub _ (fun _ => True));
      [| apply drop_word | reflexivity | apply all_tok_any].
    intros t _ _. now apply drop_fixed.
Qed.

Lemma improve_german_fixed s :
  no_compound (improve_german s) ->
  improve_german (improve_german s) = improve_german s.
Proof.
  intros (H1 & H2 & H3). destruct (german_words s) as [W1 W2].
  rewrite (improve_german_eq (improve_german s)). unfold german.
  rewrite (replace_absent _ _ _ H1), (replace_absent _ _ _ H2),
          (replace_absent _ _ _ H3).
  rewrite (re_sub_is_tok N.eqb [u "STIL"] STIL_wordy).
  fold drop_STIL. rewrite (sub_tok_fixed drop_STIL _ [] W1). simpl app.
  rewrite (re_sub_is_tok N.eqb [u "Stil"] Stil_wordy).
  fold drop_Stil. rewrite (sub_tok_fixed drop_Stil _ [] W2). simpl app.
  rewrite improve_german_eq. apply cleanup_idem.
Qed.

End Patterns.

(** ** Lengths: when the German cleanup still changes its own output *)

Section Lengths.
Context {U : Unicode}.

Lemma lit_prefix_length p : forall s,
  lit_prefix N.eqb p s = true -> length p <= length s.
Proof.
  induction p as [|a p IH]; intros s H; simpl; [lia|].
  destruct s as [|c s]; [discriminate|].
  simpl in H. apply andb_true_iff in H. destruct H as [_ H].
  apply IH in H. simpl. lia.
Qed.

(** A substitution whose replacement is no longer than any match does not
    lengthen the subject. *)
Lemma sub_from_length (m : matcher) r s pw :
  (forall pw c s n, m pw (c :: s) = Some (S n) ->
                    length r <= Nat.min (S n) (length (c :: s))) ->
  length (sub_from m r 0 pw s) <= length s.
Proof.
  intros Hm.
  apply (@sub_from_ind U m r (fun _ s out => length out <= length s)).
  - intros _. simpl. lia.
  - intros pw' c s' _ IH. simpl. lia.
  - intros pw' c s' n E w b IH.
    rewrite length_app. pose proof (Hm _ _ _ _ E) as Hr.
    rewrite <- (firstn_skipn (S n) (c :: s')). fold w b.
    rewrite length_app. unfold w at 2. rewrite length_firstn. lia.
Qed.

Lemma replace_length p r s :
  length r <= length p -> length (replace p r s) <= length s.
Proof.
  intros Hr. apply sub_from_length. intros pw c s' n E.
  unfold re_lit in E. destruct (lit_prefix N.eqb p (c :: s')) eqn:Hp; [|discriminate].
  injection E as E. apply lit_prefix_length in Hp. lia.
Qed.

Lemma replace_shrinks p r s :
  length r < length p -> contains p s = true ->
  length (replace p r s) < length s.
Proof.
  intros Hr. unfold replace, re_sub. generalize false.
  intros pw. revert s pw.
  apply (@sub_from_ind U (re_lit N.eqb p) r
    (fun _ s out => contains p s = true -> length out < length s)).
  - intros _ H. simpl in H. rewrite orb_false_r in H.
    destruct p; [simpl in Hr; lia | discriminate].
  - intros pw c s' Hm IH H. simpl in H.
    destruct (lit_prefix N.eqb p (c :: s')) eqn:Hp.
    + exfalso. destruct p as [|a p']; [simpl in Hr; lia|].
      apply (Hm (length p')). unfold re_lit. now rewrite Hp.
    + simpl in H. apply IH in H. simpl. lia.
  - intros pw c s' n E w b _ _.
    unfold re_lit in E. destruct (lit_prefix N.eqb p (c :: s')) eqn:Hp; [|discriminate].
    injection E as E. apply lit_prefix_length in Hp.
    assert (Hb : length (sub_from (re_lit N.eqb p) r 0 (pw_after pw w) b) <= length b).
    { apply sub_from_length. intros pw' c' s'' n' E'.
      unfold re_lit in E'.
      destruct (lit_prefix N.eqb p (c' :: s'')) eqn:Hp'; [|discriminate].
      injection E' as E'. apply lit_prefix_length in Hp'. lia. }
    rewrite length_app.
    rewrite <- (firstn_skipn (S n) (c :: s')). fold w b.
    rewrite length_app. unfold w at 2. rewrite length_firstn. lia.
Qed.

Lemma drop_length alts s :
  length (re_sub (re_word N.eqb alts) [] s) <= length s.
Proof. apply sub_from_length. intros. simpl. lia. Qed.

Lemma collapse_length s : length (collapse s) <= length s.
Proof. apply sub_from_length. intros. simpl. lia. Qed.

Lemma lstrip_length s : length (lstrip s) <= length s.
Proof.
  induction s as [|c s IH]; [simpl; lia|].
  simpl. destruct (is_space c); simpl; lia.
Qed.

Lemma strip_length s : length (strip s) <= length s.
Proof.
  unfold strip, rstrip. rewrite length_rev.
  pose proof (lstrip_length (rev (lstrip s))) as H1.
  rewrite length_rev in H1. pose proof (lstrip_length s). lia.
Qed.

Lemma improve_german_shrinks s :
  ~ no_compound s -> length (improve_german s) < length s.
Proof.
  intros Hn. rewrite improve_german_eq. unfold german.
  set (l1 := replace (u "STILSUPPE") (u "SUPPE") s).
  set (l2 := replace (u "STILFILET") (u "FILET") l1).
  set (l3 := replace (u "STILFRIKADELLE") (u "FRIKADELLE") l2).
  assert (H1 : length l1 <= length s) by (apply replace_length; simpl; lia).
  assert (H2 : length l2 <= length l1) by (apply replace_length; simpl; lia).
  assert (H3 : length l3 <= length l2) by (apply replace_length; simpl; lia).
  assert (Hrest : length (strip (collapse
            (re_sub (re_word N.eqb [u "Stil"]) []
               (re_sub (re_word N.eqb [u "STIL"]) [] l3)))) <= length l3).
  { eapply Nat.le_trans; [apply strip_length|].
    eapply Nat.le_trans; [apply collapse_length|].
    eapply Nat.le_trans; [apply drop_length|]. apply drop_length. }
  assert (Hlt : length l3 < length s); [|lia].
  destruct (contains (u "STILSUPPE") s) eqn:C1.
  { assert (length l1 < length s) by (apply replace_shrinks; [simpl; lia | exact C1]). lia. }
  assert (E1 : l1 = s) by (now apply replace_absent).
  destruct (contains (u "STILFILET") s) eqn:C2.
  { assert (length l2 < length l1)
      by (apply replace_shrinks; [simpl; lia | now rewrite E1]). lia. }
  assert (E2 : l2 = s) by (unfold l2; rewrite E1; now apply replace_absent).
  destruct (contains (u "STILFRIKADELLE") s) eqn:C3.
  { assert (length l3 < length l2)
      by (apply replace_shrinks; [simpl; lia | now rewrite E2]). lia. }
  exfalso. apply Hn. now repeat split.
Qed.

(** The German cleanup is stable on its own output exactly when that
    output holds none of the compound patterns. *)
Lemma improve_german_idem_iff s :
  improve_german (improve_german s) = improve_german s
  <-> no_compound (improve_german s).
Proof.
  split; [|apply improve_german_fixed].
  intros H.
  assert (D : no_compound (improve_german s) \/ ~ no_compound (improve_german s)).
  { unfold no_compound.
    destruct (contains (u "STILSUPPE") (improve_german s));
      destruct (contains (u "STILFILET") (improve_german s));
      destruct (contains (u "STILFRIKADELLE") (improve_german s));
      try (left; now repeat split);
      right; intros (A & B & C); discriminate. }
  destruct D as [D|D]; [exact D|].
  apply improve_german_shrinks in D. rewrite H in D. lia.
Qed.

End Lengths.

(** ** What [check_allergen] decides *)

Section Allergens.
Context {U : Unicode}.

Lemma search_word_iff k t :
  re_search (re_word N.eqb [k]) t = true <-> word_bounded k t.
Proof.
  unfold re_search, word_bounded. rewrite search_from_iff. split.
  - intros (a & b & n & -> & Hn).
    destruct (proj1 (re_word_one_iff k _ b) (ex_intro _ n Hn)) as (b' & -> & Hb & He).
    exists a, b'. rewrite pw_after_app. auto.
  - intros (a & b & -> & Hb & He).
    rewrite pw_after_app in He.
    destruct (proj2 (re_word_one_iff k (pw_after false a) (k ++ b))) as [n Hn].
    + exists b. auto.
    + now exists a, (k ++ b), n.
Qed.

Lemma check_keywords_cases t kws :
  check_keywords t kws = 1%Z \/ check_keywords t kws = 0%Z.
Proof.
  induction kws as [|kw kws IH]; simpl; [now right|].
  destruct (length (normalize_turkish kw) <=? 2).
  - destruct (re_search _ t); [now left | exact IH].
  - destruct (contains _ t); [now left | exact IH].
Qed.

Lemma check_keywords_iff t kws :
  check_keywords t kws = 1%Z <->
  exists kw, In kw kws /\ keyword_matches (normalize_turkish kw) t.
Proof.
  induction kws as [|kw kws IH]; simpl.
  - split; [discriminate | intros (kw & [] & _)].
  - unfold keyword_matches at 1.
    destruct (length (normalize_turkish kw) <=? 2) eqn:Hlen.
    + destruct (re_search _ t) eqn:Hs.
      * split; [intros _ | reflexivity]. exists kw. split; [now left|].
        unfold keyword_matches. rewrite Hlen. now apply search_word_iff.
      * rewrite IH. split.
        -- intros (k & Hk & Hm). exists k. split; [now right | exact Hm].
        -- intros (k & [<-|Hk] & Hm); [|now exists k].
           unfold keyword_matches in Hm. rewrite Hlen in Hm.
           apply search_word_iff in Hm. congruence.
    + destruct (contains _ t) eqn:Hs.
      * split; [intros _ | reflexivity]. exists kw. split; [now left|].
        unfold keyword_matches. rewrite Hlen. now apply contains_iff.
      * rewrite IH. split.
        -- intros (k & Hk & Hm). exists k. split; [now right | exact Hm].
        -- intros (k & [<-|Hk] & Hm); [|now exists k].
           unfold keyword_matches in Hm. rewrite Hlen in Hm.
           apply contains_iff in Hm. congruence.
Qed.

Lemma keyword_matches_empty k : ~ keyword_matches k [].
Proof.
  unfold keyword_matches, word_bounded.
  destruct (length k <=? 2) eqn:Hlen.
  - intros (a & b & H & Hb & _). symmetry in H.
    apply app_eq_nil in H. destruct H as [-> H].
    apply app_eq_nil in H. destruct H as [-> ->]. discriminate.
  - intros (a & b & H). symmetry in H.
    apply app_eq_nil in H. destruct H as [_ H].
    apply app_eq_nil in H. destruct H as [-> _]. discriminate.
Qed.

Lemma check_allergen_cases text kws :
  check_allergen text kws = 1%Z \/ check_allergen text kws = 0%Z.
Proof.
  destruct text; [now right | apply check_keywords_cases].
Qed.

Lemma check_allergen_iff text kws :
  check_allergen text kws = 1%Z <->
  exists kw, In kw kws
    /\ keyword_matches (normalize_turkish kw) (normalize_turkish text).
Proof.
  destruct text as [|c text].
  - simpl. split; [discriminate|].
    intros (kw & _ & H). now apply keyword_matches_empty in H.
  - apply check_keywords_iff.
Qed.

Lemma replace_char a b s :
  replace [a] [b] s = map (fun c => if (a =? c)%N then b else c) s.
Proof.
  unfold replace, re_sub. generalize false.
  induction s as [|c s IH]; intros pw; [reflexivity|].
  simpl map. destruct (a =? c)%N eqn:E.
  - rewrite (sub_from_match_app (re_lit N.eqb [a]) [b] pw [c] s).
    + simpl. now rewrite IH.
    + discriminate.
    + unfold re_lit. simpl. now rewrite E.
  - rewrite sub_from_keep.
    + now rewrite IH.
    + intros n. unfold re_lit. simpl. rewrite E. discriminate.
Qed.

Lemma normalize_turkish_map text :
  text <> [] -> normalize_turkish text = lower (map turkish_i text).
Proof.
  intros H. destruct text as [|c text]; [congruence|].
  unfold normalize_turkish.
  change (u "I") with [73%N]. change (u "ı") with [305%N].
  change (u "İ") with [304%N]. change (u "i") with [105%N].
  rewrite !replace_char, map_map. f_equal.
  apply map_ext. intros x. unfold turkish_i.
  rewrite (N.eqb_sym 304 x).
  destruct (x =? 304)%N eqn:E; [reflexivity|].
  now rewrite (N.eqb_sym 73 x).
Qed.

End Allergens.

(** ** The [except] branch *)

Section Handler.
Context {U : Unicode}.

Lemma dyn_check_allergen tr kws st :
  Dyn.check_allergen tr kws st
  = if raising tr then (inl Dyn.AttributeError, st) else (inr (match tr with
                      | Dyn.PyStr s => check_allergen s kws
                      | _ => 0%Z
                      end), st).
Proof.
  destruct tr as [[|c s]|z|]; try reflexivity.
  unfold Dyn.check_allergen, Dyn.normalize_turkish, raising, Dyn.truthy.
  destruct (z =? 0)%Z; reflexivity.
Qed.

Lemma dyn_improve_english v st :
  Dyn.improve_english v st
  = if raising v then (inl Dyn.AttributeError, st)
    else (inr (dyn_clean improve_english v), st).
Proof.
  destruct v as [[|c s]|z|]; try reflexivity.
  unfold Dyn.improve_english, raising, Dyn.truthy.
  destruct (z =? 0)%Z; reflexivity.
Qed.

Lemma dyn_improve_german v st :
  Dyn.improve_german v st
  = if raising v then (inl Dyn.TypeError, st)
    else (inr (dyn_clean improve_german v), st).
Proof.
  destruct v as [[|c s]|z|]; try reflexivity.
  unfold Dyn.improve_german, raising, Dyn.truthy.
  destruct (z =? 0)%Z; reflexivity.
Qed.

Lemma dyn_improve_russian v st :
  Dyn.improve_russian v st
  = if raising v then (inl Dyn.TypeError, st)
    else (inr (dyn_clean improve_russian v), st).
Proof.
  destruct v as [[|c s]|z|]; try reflexivity.
  unfold Dyn.improve_russian, raising, Dyn.truthy.
  destruct (z =? 0)%Z; reflexivity.
Qed.

(** The [try] block on a row of nine or more fields: where it raises and
    what it has counted by then. *)
Lemma dyn_try_body id_num tr en de ru gluten milk egg fish rest st :
  Dyn.try_body
    (id_num :: tr :: en :: de :: ru :: gluten :: milk :: egg :: fish :: rest) st
  = if raising tr then (inl Dyn.AttributeError, st)
    else
      let st1 := if dyn_flags_differ tr gluten milk egg fish
                 then Dyn.count_allergens st else st in
      if raising en then (inl Dyn.AttributeError, st1)
      else if raising de then (inl Dyn.TypeError, st1)
      else if raising ru then (inl Dyn.TypeError, st1)
      else (inr tt,
            Dyn.mkRun
              (Dyn.output_rows st
               ++ [[id_num; tr; dyn_clean improve_english en;
                    dyn_clean improve_german de; dyn_clean improve_russian ru;
                    dyn_flag tr GLUTEN_KEYWORDS; dyn_flag tr MILK_KEYWORDS;
                    dyn_flag tr EGG_KEYWORDS; dyn_flag tr FISH_KEYWORDS]])
              (S (Dyn.rows_processed st))
              (Dyn.allergens_updated st1)
              (if dyn_names_differ en de ru
               then S (Dyn.translations_improved st)
               else Dyn.translations_improved st)).
Proof.
  unfold dyn_flags_differ, dyn_names_differ, dyn_flag.
  cbv [Dyn.try_body Dyn.item bind ret nth_error when modify].
  rewrite dyn_check_allergen.
  destruct (raising tr) eqn:Htr; [reflexivity|]. cbv beta iota.
  do 3 (rewrite dyn_check_allergen, Htr; cbv beta iota).
  destruct (negb _ || negb _ || negb _ || negb _); cbv beta iota zeta;
    rewrite dyn_improve_english;
    (destruct (raising en); [reflexivity|]); cbv beta iota;
    rewrite dyn_improve_german;
    (destruct (raising de); [reflexivity|]); cbv beta iota;
    rewrite dyn_improve_russian;
    (destruct (raising ru); [reflexivity|]); cbv beta iota;
    destruct (negb _ || negb _ || negb _); reflexivity.
Qed.


Lemma dyn_try_body_short row st :
  length row < 9 ->
  Dyn.try_body row st = (inl Dyn.IndexError, st)
  /\ dyn_counted row = false.
Proof.
  intros H.
  do 9 (destruct row as [|? row]; [split; reflexivity|]).
  simpl in H. lia.
Qed.


(** An iteration at a data index in terms of the [try] block: a raise is
    turned into the row appended as it is, to the variables as the raise
    left them. *)
Lemma dyn_process_row i row st :
  1 <= i ->
  Dyn.process_row i row st
  = match Dyn.try_body row st with
    | (inl _, st1) => (inr tt, Dyn.append_row row st1)
    | (inr a, st1) => (inr a, st1)
    end.
Proof.
  intros Hi. unfold Dyn.process_row.
  destruct i as [|i]; [lia|]. cbn [Nat.eqb].
  destruct (length row <? 9) eqn:E; [|reflexivity].
  apply Nat.ltb_lt in E.
  now rewrite (proj1 (dyn_try_body_short row st E)).
Qed.


Lemma dyn_value_eqb_str a b : Dyn.value_eqb (Dyn.PyStr a) (Dyn.PyStr b) = str_eqb a b.
Proof. reflexivity. Qed.

(** On a row of [str] fields an iteration is the iteration of the loop
    over [str] rows. *)
Lemma dyn_process_row_strings i (srow : Row) (sst : Run) :
  Dyn.process_row i (dyn_row srow) (dyn_run sst)
  = (inr tt, dyn_run (snd (process_row i srow sst))).
Proof.
  assert (Happ : forall r s, Dyn.append_row (dyn_row r) (dyn_run s)
                             = dyn_run (append_row r s)).
  { intros r s. unfold Dyn.append_row, dyn_run, append_row. simpl.
    now rewrite map_app. }
  destruct i as [|i].
  - unfold Dyn.process_row, process_row. simpl. unfold modify.
    now rewrite Happ.
  - destruct (Nat.lt_ge_cases (length srow) 9) as [Hs|Hl].
    + rewrite process_row_short by (assumption || lia).
      rewrite dyn_process_row by lia.
      rewrite (proj1 (dyn_try_body_short (dyn_row srow) (dyn_run sst)
                        ltac:(unfold dyn_row; now rewrite length_map))).
      simpl. now rewrite Happ.
    + destruct (long_row_shape srow Hl) as (a&tr&en&de&ru&g&m&e&f&r&->).
      rewrite process_row_long, try_body_long by lia.
      rewrite dyn_process_row by lia.
      unfold dyn_row. cbn [map]. rewrite dyn_try_body.
      cbn [raising]. cbv zeta.
      unfold dyn_flags_differ, dyn_names_differ, dyn_flag, dyn_clean.
      rewrite !dyn_value_eqb_str.
      fold (flags_differ tr g m e f). fold (names_differ en de ru).
      unfold dyn_run, new_row. cbn [snd output_rows rows_processed
        allergens_updated translations_improved Dyn.output_rows
        Dyn.rows_processed Dyn.allergens_updated Dyn.translations_improved].
      rewrite map_app. cbn [map].
      destruct (flags_differ tr g m e f); reflexivity.
Qed.

Lemma dyn_for_rows_strings (rows : list Row) : forall i (sst : Run),
  Dyn.for_rows i (map dyn_row rows) (dyn_run sst)
  = (inr tt, dyn_run (snd (for_rows i rows sst))).
Proof.
  induction rows as [|row rows IH]; intros i sst; [reflexivity|].
  cbn [map Dyn.for_rows for_rows]. unfold bind, bind.
  rewrite dyn_process_row_strings.
  pose proof (process_row_ok i row sst) as Hok.
  destruct (process_row i row sst) as [[e|[]] st']; [discriminate|].
  apply IH.
Qed.

(** The loop over a table of [str] fields is the loop of [process_csv]
    as given for such tables. *)
Lemma dyn_process_csv_strings (table : list Row) :
  Dyn.process_csv (map dyn_row table)
  = (inr tt, dyn_run (snd (process_csv table))).
Proof. apply (dyn_for_rows_strings table 0 initial). Qed.

End Handler.

(** * The claims of the specification *)

Section Rows.
Context {U : Unicode}.

Lemma emitted_cases row :
  (length row < 9 /\ emitted row = row)
  \/ exists id_num tr en de ru gluten milk egg fish rest,
       row = id_num :: tr :: en :: de :: ru :: gluten :: milk :: egg :: fish :: rest
       /\ emitted row = new_row id_num tr en de ru.
Proof.
  destruct (Nat.lt_ge_cases (length row) 9) as [H|H].
  - left. split; [exact H | now apply emitted_short].
  - right. destruct (long_row_shape row H) as (a&b&c&d&e&f&g&h&k&r&->).
    exists a, b, c, d, e, f, g, h, k, r. split; [reflexivity | apply emitted_long].
Qed.

Lemma table_output table :
  fst (process_csv table) = inr tt /\
  output_rows (snd (process_csv table))
  = match table with
    | [] => []
    | header :: rows => header :: map emitted rows
    end.
Proof.
  destruct table as [|header rows]; [split; reflexivity|].
  apply process_csv_output.
Qed.

Lemma emitted_idem row :
  (forall de, 9 <= length row -> nth_error row 3 = Some de ->
              no_compound (improve_german de)) ->
  emitted (emitted row) = emitted row.
Proof.
  intros H. destruct (emitted_cases row) as [[Hs E]|(a&b&c&d&e&f&g&h&k&r&->&E)].
  - now rewrite E.
  - rewrite E. unfold new_row at 1. rewrite emitted_long. unfold new_row.
    rewrite improve_english_idem, improve_russian_idem.
    rewrite improve_german_fixed; [reflexivity|].
    apply H; [simpl; lia | reflexivity].
Qed.

End Rows.

(** C1 (as amended).  For every data row (index >= 1) the table written
    out holds one row at the same index.  Its fields 0 and 1 (id and
    Turkish name) are those of the input row; it has as many fields as the
    input row when that has at most nine and exactly nine otherwise
    (fields from index 9 on are dropped); a row of fewer than nine fields
    is emitted unchanged.  The fields keep the order of the input row:
    for a row of nine or more fields the output fields 2, 3 and 4 are the
    cleaned EN, DE and RU fields found at the same index of the input,
    and the output fields 5 to 8 are the gluten, milk, egg and fish flags,
    in that order, computed from the field at index 1.  So only the
    fields at indices 2 to 8 may differ in value. *)
Theorem C1_row_shape `{Unicode} (table : list Row) (i : nat) (row : Row) :
  1 <= i -> nth_error table i = Some row ->
  exists out,
    nth_error (output_rows (snd (process_csv table))) i = Some out
    /\ length out = Nat.min (length row) 9
    /\ (forall j, j < 2 -> nth_error out j = nth_error row j)
    /\ (length row < 9 -> out = row)
    /\ (9 <= length row ->
        nth_error out 2 = option_map improve_english (nth_error row 2)
        /\ nth_error out 3 = option_map improve_german (nth_error row 3)
        /\ nth_error out 4 = option_map improve_russian (nth_error row 4)
        /\ nth_error out 5
           = option_map (fun tr => py_str (check_allergen tr GLUTEN_KEYWORDS))
                        (nth_error row 1)
        /\ nth_error out 6
           = option_map (fun tr => py_str (check_allergen tr MILK_KEYWORDS))
                        (nth_error row 1)
        /\ nth_error out 7
           = option_map (fun tr => py_str (check_allergen tr EGG_KEYWORDS))
                        (nth_error row 1)
        /\ nth_error out 8
           = option_map (fun tr => py_str (check_allergen tr FISH_KEYWORDS))
                        (nth_error row 1)).
Proof.
  intros Hi Hrow. destruct table as [|header rows]; [now destruct i|].
  destruct i as [|i]; [lia|]. simpl in Hrow.
  destruct (process_csv_output header rows) as [_ ->].
  exists (emitted row). split.
  - simpl. now apply map_nth_error.
  - destruct (emitted_cases row) as [[Hs E]|(a&b&c&d&e&f&g&h&k&r&->&E)];
      rewrite E.
    + split; [lia|]. split; [reflexivity|]. split; [reflexivity|]. lia.
    + split; [simpl; lia|]. split; [|split].
      * intros j Hj. destruct j as [|[|j]]; [reflexivity | reflexivity | lia].
      * simpl. lia.
      * intros _. repeat split.
Qed.

Lemma C1_row_shape_witness :
  nth_error (output_rows (snd (process_csv
    [[u "id"];
     map u ["7"; "Balık Çorbası"; "FISH STIL SOUP"; "FISCH STILSUPPE";
            "Рыбный  суп"; "0"; "0"; "0"; "0"; "note"]%string]))) 1
  = Some (map u ["7"; "Balık Çorbası"; "FISH Style SOUP"; "FISCH SUPPE";
                 "Рыбный суп"; "0"; "0"; "0"; "1"]%string).
Proof.
  destruct (C1_row_shape
              [[u "id"];
               map u ["7"; "Balık Çorbası"; "FISH STIL SOUP"; "FISCH STILSUPPE";
                      "Рыбный  суп"; "0"; "0"; "0"; "0"; "note"]%string] 1 _
              (le_n 1) eq_refl)
    as (out & Ho & Hl & H01 & _ & Hord).
  rewrite Ho. f_equal.
  destruct (Hord ltac:(simpl; lia)) as (H2 & H3 & H4 & H5 & H6 & H7 & H8).
  pose proof (H01 0 ltac:(lia)) as H0. pose proof (H01 1 ltac:(lia)) as H1.
  do 9 (destruct out as [|? out]; [discriminate Hl|]).
  destruct out; [|discriminate Hl].
  vm_compute in H0, H1, H2, H3, H4, H5, H6, H7, H8.
  injection H0 as ->. injection H1 as ->. injection H2 as ->.
  injection H3 as ->. injection H4 as ->. injection H5 as ->.
  injection H6 as ->. injection H7 as ->. injection H8 as ->.
  vm_compute. reflexivity.
Defined.

(** C1 as stated fails: a data row of ten fields is written out with nine. *)
Lemma C1_ten_fields :
  let row := map u ["1"; "Su"; "Water"; "Wasser"; "Voda";
                    "0"; "0"; "0"; "0"; "extra"]%string in
  exists out,
    nth_error (output_rows (snd (process_csv [[u "id"]; row]))) 1 = Some out
    /\ length row = 10 /\ length out = 9.
Proof. eexists. split; [vm_compute; reflexivity | split; reflexivity]. Qed.

(** C2 (as amended).  [improve_english] and [improve_russian] are
    idempotent on every string.  [improve_german] applied to its own
    result changes nothing exactly when that result holds none of the
    compound patterns STILSUPPE, STILFILET, STILFRIKADELLE.  Running the
    row loop on the table it wrote changes nothing, provided the cleaned
    German field of every data row of nine or more fields holds none of
    the compound patterns. *)
Theorem C2_idempotence `{Unicode} :
  (forall s, improve_english (improve_english s) = improve_english s)
  /\ (forall s, improve_russian (improve_russian s) = improve_russian s)
  /\ (forall s, improve_german (improve_german s) = improve_german s
                <-> no_compound (improve_german s))
  /\ (forall table,
        (forall row de, In row (tl table) -> 9 <= length row ->
                        nth_error row 3 = Some de ->
                        no_compound (improve_german de)) ->
        output_rows (snd (process_csv (output_rows (snd (process_csv table)))))
        = output_rows (snd (process_csv table))).
Proof.
  split; [apply improve_english_idem|].
  split; [apply improve_russian_idem|].
  split; [apply improve_german_idem_iff|].
  intros table Hde.
  destruct table as [|header rows]; [reflexivity|].
  rewrite (proj2 (process_csv_output header rows)).
  rewrite (proj2 (process_csv_output header (map emitted rows))).
  f_equal. rewrite map_map. apply map_ext_in.
  intros row Hrow. apply emitted_idem. intros de. now apply Hde.
Qed.

Lemma C2_idempotence_witness :
  (improve_german (improve_german (u "BALIK STIL")) = improve_german (u "BALIK STIL"))
  /\ (let table := [[u "id"];
                     map u ["12"; "Balık Köfte"; "Fish Balls"; "Fischbällchen STIL";
                            "Рыбные шарики  "; "0"; "0"; "0"; "0"]%string] in
      output_rows (snd (process_csv (output_rows (snd (process_csv table)))))
      = output_rows (snd (process_csv table))).
Proof.
  destruct (@C2_idempotence py_unicode) as (_ & _ & HG & HT). split.
  - apply HG. repeat split; vm_compute; reflexivity.
  - apply HT. intros row de [<-|[]] _ Hde.
    vm_compute in Hde. injection Hde as <-.
    repeat split; vm_compute; reflexivity.
Defined.

(** C2 as stated fails: the German cleanup is not idempotent. *)
Lemma C2_german_not_idempotent :
  improve_german (u "STILSTILSUPPE") = u "STILSUPPE"
  /\ improve_german (improve_german (u "STILSTILSUPPE")) = u "SUPPE"
  /\ improve_german (improve_german (u "STILSTILSUPPE"))
     <> improve_german (u "STILSTILSUPPE").
Proof. repeat split; try (vm_compute; reflexivity). vm_compute. discriminate. Qed.

(** C3 (as amended).  [check_allergen] returns 1 exactly when some keyword
    of the set matches the normalized subject, and 0 otherwise; a keyword
    whose normalized length is at most 2 matches at an occurrence that
    starts and ends on a regular-expression word boundary (exactly one of
    the two characters around the position is a letter, a digit or an
    underscore, a string edge counting as none), a longer one by plain
    containment.  The result does not depend on the order of the
    keywords. *)
Theorem C3_check_allergen `{Unicode} (text : str) (keywords : list str) :
  (check_allergen text keywords = 1%Z <->
   exists kw, In kw keywords
     /\ keyword_matches (normalize_turkish kw) (normalize_turkish text))
  /\ (check_allergen text keywords = 1%Z \/ check_allergen text keywords = 0%Z)
  /\ (forall keywords', Permutation keywords keywords' ->
        check_allergen text keywords' = check_allergen text keywords).
Proof.
  split; [apply check_allergen_iff|].
  split; [apply check_allergen_cases|].
  intros keywords' Hp.
  assert (Hiff : check_allergen text keywords' = 1%Z <->
                 check_allergen text keywords = 1%Z).
  { rewrite !check_allergen_iff. split; intros (kw & Hin & Hm); exists kw;
      (split; [|exact Hm]).
    - apply Permutation_sym in Hp. now apply (Permutation_in _ Hp).
    - now apply (Permutation_in _ Hp). }
  destruct (check_allergen_cases text keywords) as [E|E];
    destruct (check_allergen_cases text keywords') as [E'|E']; try congruence.
  - apply Hiff in E. congruence.
  - apply Hiff in E'. congruence.
Qed.

Lemma C3_check_allergen_witness :
  check_allergen (u "Ton Balığı") (map u ["somon"; "ton"]%string)
  = check_allergen (u "Ton Balığı") (map u ["ton"; "somon"]%string).
Proof.
  apply (proj2 (proj2 (C3_check_allergen (u "Ton Balığı")
                         (map u ["ton"; "somon"]%string)))).
  apply perm_swap.
Defined.

(** C3 as stated fails: in the subject "un_" the short keyword "un" is
    bounded by a string edge and by an underscore, which is neither a
    letter nor a digit, yet [check_allergen] returns 0. *)
Lemma C3_underscore :
  check_allergen (u "un_") GLUTEN_KEYWORDS = 0%Z
  /\ In (u "un") GLUTEN_KEYWORDS
  /\ spec_keyword_matches (normalize_turkish (u "un"))
                          (normalize_turkish (u "un_")).
Proof.
  split; [vm_compute; reflexivity|]. split.
  - vm_compute. tauto.
  - exists [], [95%N]. repeat split; [now left | now right].
Qed.

(** C4.  The end-to-end scenario: the row for "Balık Köfte" gets the
    flags gluten 0, milk 0, egg 0, fish 1, the German field
    "Fischbällchen" and the Russian field without its trailing blanks. *)
Theorem C4_scenario (header : Row) :
  output_rows (snd (process_csv
    [header;
     map u ["12"; "Balık Köfte"; "Fish Balls"; "Fischbällchen STIL";
            "Рыбные шарики  "; "0"; "0"; "0"; "0"]%string]))
  = [header;
     map u ["12"; "Balık Köfte"; "Fish Balls"; "Fischbällchen";
            "Рыбные шарики"; "0"; "0"; "0"; "1"]%string].
Proof.
  destruct (process_csv_output header
    [map u ["12"; "Balık Köfte"; "Fish Balls"; "Fischbällchen STIL";
            "Рыбные шарики  "; "0"; "0"; "0"; "0"]%string]) as [_ ->].
  vm_compute. reflexivity.
Qed.

(** C5.  [normalize_turkish] maps U+0130 to i and I to U+0131 character
    by character and lowercases the result; [check_allergen] normalizes
    the subject and each keyword this way, so that the subject "BALIK"
    is normalized to the keyword "balık" and gives 1 for the fish
    keywords. *)
Theorem C5_turkish_i :
  (forall (U : Unicode) text,
     text <> [] -> normalize_turkish text = lower (map turkish_i text))
  /\ (forall (U : Unicode) text keywords,
        text <> [] ->
        check_allergen text keywords
        = check_keywords (lower (map turkish_i text)) keywords)
  /\ (forall (U : Unicode) t kw keywords,
        check_keywords t (kw :: keywords)
        = if length (normalize_turkish kw) <=? 2
          then if re_search (re_word N.eqb [normalize_turkish kw]) t
               then 1%Z else check_keywords t keywords
          else if contains (normalize_turkish kw) t
               then 1%Z else check_keywords t keywords)
  /\ normalize_turkish (u "İI") = u "iı"
  /\ normalize_turkish (u "BALIK") = u "balık"
  /\ check_allergen (u "BALIK") FISH_KEYWORDS = 1%Z.
Proof.
  split; [intros U; apply normalize_turkish_map|].
  split.
  { intros U text keywords H. rewrite <- normalize_turkish_map by assumption.
    destruct text; [congruence | reflexivity]. }
  split; [reflexivity|].
  repeat split; vm_compute; reflexivity.
Qed.

Lemma C5_turkish_i_witness :
  normalize_turkish (u "Iİ") = lower (map turkish_i (u "Iİ")).
Proof. apply (proj1 C5_turkish_i py_unicode). discriminate. Defined.

(** C6.  The English cleanup is the three literal replacements in the
    listed order followed by the two case-insensitive whole-word
    substitutions, each of which rewrites every maximal run of word
    characters on its own (a run matching STIL, USULÜ or USULU in any
    casing becomes "Style", a run matching KEBAP becomes "Kebab", any
    other run stays); "ADANA STIL KEBAP" becomes "Adana Style Kebab" (the
    word rules alone would give "ADANA Style Kebab"), "TAVUK USULÜ"
    becomes "TAVUK Style", and in another casing the literal fix does not
    apply while the word rules do. *)
Theorem C6_english_order :
  (forall (U : Unicode) text,
     improve_english text
     = re_sub (re_word ci_eq [u "KEBAP"]) (u "Kebab")
         (re_sub (re_word ci_eq [u "STIL"; u "Stil"; u "USULÜ"; u "USULU"])
                 (u "Style")
            (replace (u "ADANA STIL KEBAP") (u "Adana Style Kebab")
               (replace (u "ADANA STYLE KEBAP") (u "Adana Style Kebab")
                  (replace (u "SAUTEED OF SHRIMP") (u "Sauteed Shrimp") text)))))
  /\ (forall (U : Unicode) s,
        re_sub (re_word ci_eq [u "STIL"; u "Stil"; u "USULÜ"; u "USULU"])
               (u "Style") s
        = sub_tok style_word [] s)
  /\ (forall (U : Unicode) s,
        re_sub (re_word ci_eq [u "KEBAP"]) (u "Kebab") s
        = sub_tok kebap_word [] s)
  /\ improve_english (u "ADANA STIL KEBAP") = u "Adana Style Kebab"
  /\ re_sub (re_word ci_eq [u "KEBAP"]) (u "Kebab")
       (re_sub (re_word ci_eq [u "STIL"; u "Stil"; u "USULÜ"; u "USULU"])
               (u "Style") (u "ADANA STIL KEBAP"))
     = u "ADANA Style Kebab"
  /\ improve_english (u "TAVUK USULÜ") = u "TAVUK Style"
  /\ improve_english (u "adana stil kebap") = u "adana Style Kebab".
Proof.
  split; [intros U text; apply improve_english_eq|].
  split; [intros U s; apply (re_sub_is_tok ci_eq style_alts style_wordy)|].
  split; [intros U s; apply (re_sub_is_tok ci_eq kebap_alts kebap_wordy)|].
  repeat split; vm_compute; reflexivity.
Qed.

(** C7.  The German cleanup collapses the three compound patterns, then
    removes the whole words STIL and Stil (each of the two steps deletes
    exactly the maximal runs of word characters equal to its word), then
    collapses whitespace and trims; "MERCIMEK STILSUPPE" becomes "MERCIMEK SUPPE", "BALIK STIL"
    becomes "BALIK", and the fourteen other casings of the word are left
    as they are. *)
Theorem C7_german_steps :
  (forall (U : Unicode) text,
     improve_german text
     = strip (re_sub re_spaces (u " ")
         (re_sub (re_word N.eqb [u "Stil"]) []
            (re_sub (re_word N.eqb [u "STIL"]) []
               (re_sub (re_lit N.eqb (u "STILFRIKADELLE")) (u "FRIKADELLE")
                  (re_sub (re_lit N.eqb (u "STILFILET")) (u "FILET")
                     (re_sub (re_lit N.eqb (u "STILSUPPE")) (u "SUPPE") text)))))))
  /\ (forall (U : Unicode) s,
        re_sub (re_word N.eqb [u "STIL"]) [] s = sub_tok drop_STIL [] s)
  /\ (forall (U : Unicode) s,
        re_sub (re_word N.eqb [u "Stil"]) [] s = sub_tok drop_Stil [] s)
  /\ improve_german (u "MERCIMEK STILSUPPE") = u "MERCIMEK SUPPE"
  /\ improve_german (u "BALIK STIL") = u "BALIK"
  /\ improve_german (u "Fisch Stil Suppe") = u "Fisch Suppe"
  /\ Forall (fun w => improve_german (u w) = u w
                      /\ improve_german (u "SUPPE " ++ u w ++ u " ART")
                         = u "SUPPE " ++ u w ++ u " ART")
       ["STIl"; "STiL"; "STil"; "StIL"; "StIl"; "StiL"; "sTIL"; "sTIl";
        "sTiL"; "sTil"; "stIL"; "stIl"; "stiL"; "stil"]%string.
Proof.
  split; [intros U text; apply improve_german_eq|].
  split; [intros U s; apply (re_sub_is_tok N.eqb [u "STIL"] STIL_wordy)|].
  split; [intros U s; apply (re_sub_is_tok N.eqb [u "Stil"] Stil_wordy)|].
  repeat split; try (vm_compute; reflexivity).
  repeat constructor; vm_compute; reflexivity.
Qed.




(** C9.  For a data row of nine or more fields the emitted flag fields
    (indices 5 to 8) are [str(check_allergen(name_tr, K))] for the four
    keyword sets, each "0" or "1"; the emitted row, the processed-rows
    counter and the translations counter do not depend on the input flag
    fields, which only decide whether the allergens counter moves. *)
Theorem C9_flags `{Unicode} (i : nat)
    (id_num tr en de ru gluten milk egg fish : str) (rest : list str)
    (st : Run) :
  1 <= i ->
  let row := id_num :: tr :: en :: de :: ru :: gluten :: milk :: egg :: fish :: rest in
  let st' := snd (process_row i row st) in
  exists out,
    output_rows st' = output_rows st ++ [out]
    /\ nth_error out 5 = Some (py_str (check_allergen tr GLUTEN_KEYWORDS))
    /\ nth_error out 6 = Some (py_str (check_allergen tr MILK_KEYWORDS))
    /\ nth_error out 7 = Some (py_str (check_allergen tr EGG_KEYWORDS))
    /\ nth_error out 8 = Some (py_str (check_allergen tr FISH_KEYWORDS))
    /\ (forall k, 5 <= k < 9 ->
          nth_error out k = Some (u "0") \/ nth_error out k = Some (u "1"))
    /\ (allergens_updated st' =
          if negb (str_eqb (py_str (check_allergen tr GLUTEN_KEYWORDS)) gluten)
             || negb (str_eqb (py_str (check_allergen tr MILK_KEYWORDS)) milk)
             || negb (str_eqb (py_str (check_allergen tr EGG_KEYWORDS)) egg)
             || negb (str_eqb (py_str (check_allergen tr FISH_KEYWORDS)) fish)
          then S (allergens_updated st) else allergens_updated st)
    /\ (forall gluten' milk' egg' fish' rest',
          let row' := id_num :: tr :: en :: de :: ru
                      :: gluten' :: milk' :: egg' :: fish' :: rest' in
          let st'' := snd (process_row i row' st) in
          output_rows st'' = output_rows st'
          /\ rows_processed st'' = rows_processed st'
          /\ translations_improved st'' = translations_improved st').
Proof.
  intros Hi row st'. unfold st', row.
  rewrite process_row_long, try_body_long by assumption.
  exists (new_row id_num tr en de ru). simpl snd. simpl output_rows.
  split; [reflexivity|]. do 4 (split; [reflexivity|]).
  split.
  - intros k Hk.
    assert (Hf : forall kws, py_str (check_allergen tr kws) = u "1"
                             \/ py_str (check_allergen tr kws) = u "0").
    { intros kws. destruct (check_allergen_cases tr kws) as [-> | ->];
        [left | right]; reflexivity. }
    unfold new_row.
    destruct k as [|[|[|[|[|[|[|[|[|k]]]]]]]]]; try lia; simpl;
      match goal with |- context [check_allergen tr ?K] =>
        destruct (Hf K) as [-> | ->] end; auto.
  - split; [reflexivity|].
    intros gluten' milk' egg' fish' rest'. cbv zeta.
    rewrite process_row_long, try_body_long by assumption.
    repeat split.
Qed.

Lemma C9_flags_witness :
  exists out,
    output_rows (snd (process_row 1
      (map u ["3"; "Sütlaç"; "Rice Pudding"; "Milchreis"; "Рис"; "1"; "0"; "1"; "0"]%string)
      initial)) = [out]
    /\ nth_error out 6 = Some (u "1").
Proof.
  destruct (@C9_flags py_unicode 1 (u "3") (u "Sütlaç") (u "Rice Pudding")
              (u "Milchreis") (u "Рис") (u "1") (u "0") (u "1") (u "0") []
              initial (le_n 1)) as (out & Ho & _ & Hm & _).
  exists out. split; [exact Ho|]. rewrite Hm. vm_compute. reflexivity.
Defined.

(** C10.  On the empty subject [check_allergen] returns 0 whatever the
    keywords, and [normalize_turkish] of the empty string is the empty
    string. *)
Theorem C10_empty_subject `{Unicode} (keywords : list str) :
  check_allergen (u "") keywords = 0%Z /\ normalize_turkish (u "") = u "".
Proof. split; reflexivity. Qed.

(** * Further properties of the script *)

(** ** The table and the counters of [process_csv] *)

Section Counters.
Context {U : Unicode}.

Lemma str_eqb_eq a : forall b, str_eqb a b = true <-> a = b.
Proof.
  induction a as [|x a IH]; intros [|y b]; simpl;
    try (split; [discriminate | congruence]); [tauto|].
  rewrite andb_true_iff, N.eqb_eq, IH. split.
  - now intros [-> ->].
  - intros E. injection E as -> ->. now split.
Qed.

Lemma str_eqb_refl a : str_eqb a a = true.
Proof. now apply str_eqb_eq. Qed.

Lemma str_neqb a b : negb (str_eqb a b) = true <-> a <> b.
Proof.
  rewrite negb_true_iff. split.
  - intros H E. apply str_eqb_eq in E. congruence.
  - intros H. destruct (str_eqb a b) eqn:E; [|reflexivity].
    apply str_eqb_eq in E. contradiction.
Qed.

Lemma long_row_short r : length r < 9 ->
  long_row r = false /\ flags_changed r = false /\ names_changed r = false
  /\ still_compound r = false.
Proof.
  intros H. unfold long_row.
  replace (9 <=? length r) with false by (symmetry; apply Nat.leb_gt; exact H).
  do 9 (destruct r as [|? r]; [repeat split|]). simpl in H. lia.
Qed.

(** What one iteration at a data index adds to the counters. *)
Lemma run_row_counters row st :
  rows_processed (run_row row st)
  = rows_processed st + (if long_row row then 1 else 0)
  /\ allergens_updated (run_row row st)
     = allergens_updated st + (if flags_changed row then 1 else 0)
  /\ translations_improved (run_row row st)
     = translations_improved st + (if names_changed row then 1 else 0).
Proof.
  destruct (Nat.lt_ge_cases (length row) 9) as [H|H].
  - destruct (long_row_short row H) as (-> & -> & -> & _).
    unfold run_row. rewrite process_row_short by (assumption || lia).
    simpl. lia.
  - destruct (long_row_shape row H) as (a&b&c&d&e&f&g&h&k&r&->).
    unfold run_row. rewrite process_row_long, try_body_long by lia.
    simpl. destruct (flags_differ _ _ _ _ _); destruct (names_differ _ _ _); lia.
Qed.

Lemma fold_run_counters rows : forall st,
  let st' := fold_left (fun s row => run_row row s) rows st in
  rows_processed st' = rows_processed st + length (filter long_row rows)
  /\ allergens_updated st'
     = allergens_updated st + length (filter flags_changed rows)
  /\ translations_improved st'
     = translations_improved st + length (filter names_changed rows).
Proof.
  induction rows as [|row rows IH]; intros st; simpl.
  - lia.
  - destruct (IH (run_row row st)) as (A & B & C).
    destruct (run_row_counters row st) as (A' & B' & C').
    rewrite A, B, C, A', B', C'.
    destruct (long_row row); destruct (flags_changed row);
      destruct (names_changed row); simpl; lia.
Qed.

Lemma process_csv_counters header rows :
  let st := snd (process_csv (header :: rows)) in
  rows_processed st = length (filter long_row rows)
  /\ allergens_updated st = length (filter flags_changed rows)
  /\ translations_improved st = length (filter names_changed rows).
Proof.
  unfold process_csv. simpl. unfold bind. simpl.
  rewrite for_rows_data by lia. simpl snd.
  destruct (fold_run_counters rows (append_row header initial)) as (A & B & C).
  rewrite A, B, C. simpl. lia.
Qed.

Lemma flags_changed_iff r :
  flags_changed r = true <->
  9 <= length r /\ firstn 4 (skipn 5 (emitted r)) <> firstn 4 (skipn 5 r).
Proof.
  destruct (Nat.lt_ge_cases (length r) 9) as [H|H].
  - destruct (long_row_short r H) as (_ & -> & _). split; [discriminate | lia].
  - destruct (long_row_shape r H) as (a&b&c&d&e&f&g&h&k&rest&->).
    rewrite emitted_long. unfold new_row, flags_changed, flags_differ.
    set (f' := py_str (check_allergen b GLUTEN_KEYWORDS)).
    set (g' := py_str (check_allergen b MILK_KEYWORDS)).
    set (h' := py_str (check_allergen b EGG_KEYWORDS)).
    set (k' := py_str (check_allergen b FISH_KEYWORDS)).
    cbn [firstn skipn].
    rewrite !orb_true_iff, !str_neqb. split.
    + intros Hd. split; [exact H|]. intros E. injection E as -> -> -> ->. tauto.
    + intros [_ Hn].
      destruct (str_eqb f' f) eqn:E1;
        [|left; left; left; intros E; apply str_eqb_eq in E; congruence].
      destruct (str_eqb g' g) eqn:E2;
        [|left; left; right; intros E; apply str_eqb_eq in E; congruence].
      destruct (str_eqb h' h) eqn:E3;
        [|left; right; intros E; apply str_eqb_eq in E; congruence].
      destruct (str_eqb k' k) eqn:E4;
        [|right; intros E; apply str_eqb_eq in E; congruence].
      apply str_eqb_eq in E1, E2, E3, E4. exfalso. apply Hn. congruence.
Qed.

Lemma names_changed_iff r :
  names_changed r = true <->
  9 <= length r /\ firstn 3 (skipn 2 (emitted r)) <> firstn 3 (skipn 2 r).
Proof.
  destruct (Nat.lt_ge_cases (length r) 9) as [H|H].
  - destruct (long_row_short r H) as (_ & _ & -> & _). split; [discriminate | lia].
  - destruct (long_row_shape r H) as (a&b&c&d&e&f&g&h&k&rest&->).
    rewrite emitted_long. unfold new_row, names_changed, names_differ.
    set (c' := improve_english c). set (d' := improve_german d).
    set (e' := improve_russian e).
    cbn [firstn skipn].
    rewrite !orb_true_iff, !str_neqb. split.
    + intros Hd. split; [exact H|]. intros E. injection E as -> -> ->. tauto.
    + intros [_ Hn].
      destruct (str_eqb c' c) eqn:E1;
        [|left; left; intros E; apply str_eqb_eq in E; congruence].
      destruct (str_eqb d' d) eqn:E2;
        [|left; right; intros E; apply str_eqb_eq in E; congruence].
      destruct (str_eqb e' e) eqn:E3;
        [|right; intros E; apply str_eqb_eq in E; congruence].
      apply str_eqb_eq in E1, E2, E3. exfalso. apply Hn. congruence.
Qed.

Lemma filter_length_le {A} (f : A -> bool) l : length (filter f l) <= length l.
Proof. induction l as [|x l IH]; simpl; [lia|]. destruct (f x); simpl; lia. Qed.

Lemma filter_length_sub {A} (f g : A -> bool) l :
  (forall x, f x = true -> g x = true) ->
  length (filter f l) <= length (filter g l).
Proof.
  intros H. induction l as [|x l IH]; simpl; [lia|].
  destruct (f x) eqn:E.
  - rewrite (H x E). simpl. lia.
  - destruct (g x); simpl; lia.
Qed.

Lemma has_compound_iff s : has_compound s = false <-> no_compound s.
Proof.
  unfold has_compound, no_compound. rewrite !orb_false_iff. tauto.
Qed.

(** The second run over an emitted row. *)
Lemma emitted_again row :
  long_row (emitted row) = long_row row
  /\ flags_changed (emitted row) = false
  /\ names_changed (emitted row) = still_compound row.
Proof.
  destruct (emitted_cases row) as [[Hs E]|(a&b&c&d&e&f&g&h&k&r&->&E)].
  - rewrite E. destruct (long_row_short row Hs) as (_ & -> & -> & ->). auto.
  - rewrite E. unfold new_row. split; [reflexivity|]. split.
    + simpl. unfold flags_differ. now rewrite !str_eqb_refl.
    + simpl. unfold names_differ.
      rewrite improve_english_idem, improve_russian_idem, !str_eqb_refl.
      simpl. rewrite orb_false_r.
      destruct (has_compound (improve_german d)) eqn:Hc.
      * apply str_neqb. intros Heq. apply improve_german_idem_iff in Heq.
        apply has_compound_iff in Heq. congruence.
      * apply has_compound_iff, improve_german_idem_iff in Hc.
        now rewrite Hc, str_eqb_refl.
Qed.

Lemma filter_map_ext {A} (f g : A -> bool) (h : A -> A) l :
  (forall x, f (h x) = g x) ->
  length (filter f (map h l)) = length (filter g l).
Proof.
  intros H. induction l as [|x l IH]; simpl; [reflexivity|].
  rewrite H. destruct (g x); simpl; lia.
Qed.

End Counters.

(** X1.  The loop of [process_csv] always runs to its end; the table it
    writes has as many rows as the table it read, its first row is the
    header as read whatever the header holds, and each further row is
    determined by the input row at the same index alone, so that
    processing a table is processing its parts. *)
Theorem X1_table_shape `{Unicode} (table : list Row) :
  fst (process_csv table) = inr tt
  /\ length (output_rows (snd (process_csv table))) = length table
  /\ nth_error (output_rows (snd (process_csv table))) 0 = nth_error table 0
  /\ (forall header rows1 rows2,
        table = header :: rows1 ++ rows2 ->
        output_rows (snd (process_csv table))
        = output_rows (snd (process_csv (header :: rows1)))
          ++ tl (output_rows (snd (process_csv (header :: rows2)))))
  /\ (forall table' i row,
        1 <= i -> nth_error table i = Some row -> nth_error table' i = Some row ->
        nth_error (output_rows (snd (process_csv table'))) i
        = nth_error (output_rows (snd (process_csv table))) i).
Proof.
  destruct (table_output table) as [Hok Hout].
  split; [exact Hok|]. rewrite Hout.
  split; [destruct table; simpl; [reflexivity | now rewrite length_map]|].
  split; [destruct table; reflexivity|].
  split.
  - intros header rows1 rows2 ->.
    rewrite (proj2 (process_csv_output header rows1)),
            (proj2 (process_csv_output header rows2)).
    simpl. now rewrite map_app.
  - intros table' i row Hi Hr Hr'.
    rewrite (proj2 (table_output table')).
    destruct i as [|i]; [lia|].
    destruct table as [|h rows]; [discriminate|].
    destruct table' as [|h' rows']; [discriminate|].
    simpl in *. now rewrite (map_nth_error _ _ _ Hr), (map_nth_error _ _ _ Hr').
Qed.

Lemma X1_table_shape_witness :
  output_rows (snd (process_csv
    ([u "id"] :: [[u "1"; u "Un"]] ++ [[u "2"]])))
  = output_rows (snd (process_csv ([u "id"] :: [[u "1"; u "Un"]])))
    ++ tl (output_rows (snd (process_csv ([u "id"] :: [[u "2"]])))).
Proof.
  apply (proj1 (proj2 (proj2 (proj2
    (X1_table_shape ([u "id"] :: [[u "1"; u "Un"]] ++ [[u "2"]])))))).
  reflexivity.
Defined.

(** X2.  The three numbers [process_csv] reports: rows processed is the
    number of data rows of nine or more fields; allergens updated is the
    number of those whose emitted flag fields (indices 5 to 8) differ from
    the ones read; translations improved is the number of those whose
    emitted name fields (indices 2 to 4) differ from the ones read.  So
    neither exceeds rows processed, which does not exceed the number of
    data rows. *)
Theorem X2_counters `{Unicode} (header : Row) (rows : list Row) :
  let st := snd (process_csv (header :: rows)) in
  rows_processed st = length (filter long_row rows)
  /\ allergens_updated st = length (filter flags_changed rows)
  /\ translations_improved st = length (filter names_changed rows)
  /\ (forall r, long_row r = true <-> 9 <= length r)
  /\ (forall r, flags_changed r = true <->
        9 <= length r
        /\ firstn 4 (skipn 5 (emitted r)) <> firstn 4 (skipn 5 r))
  /\ (forall r, names_changed r = true <->
        9 <= length r
        /\ firstn 3 (skipn 2 (emitted r)) <> firstn 3 (skipn 2 r))
  /\ allergens_updated st <= rows_processed st
  /\ translations_improved st <= rows_processed st
  /\ rows_processed st <= length rows.
Proof.
  intros st. destruct (process_csv_counters header rows) as (A & B & C).
  fold st in A, B, C. rewrite A, B, C.
  split; [reflexivity|]. split; [reflexivity|]. split; [reflexivity|].
  split; [intros r; apply Nat.leb_le|].
  split; [apply flags_changed_iff|]. split; [apply names_changed_iff|].
  split; [|split].
  - apply filter_length_sub. intros r Hr. apply flags_changed_iff in Hr.
    now apply Nat.leb_le.
  - apply filter_length_sub. intros r Hr. apply names_changed_iff in Hr.
    now apply Nat.leb_le.
  - apply filter_length_le.
Qed.

(** X3.  Running [process_csv] on the table it wrote: the same number of
    rows is processed, no row has its allergen flags updated, and the
    rows counted as improved translations are exactly the rows whose
    cleaned German field still holds a compound pattern. *)
Theorem X3_second_run `{Unicode} (header : Row) (rows : list Row) :
  let first := snd (process_csv (header :: rows)) in
  let second := snd (process_csv (output_rows first)) in
  rows_processed second = rows_processed first
  /\ allergens_updated second = 0
  /\ translations_improved second = length (filter still_compound rows)
  /\ (forall r, still_compound r = true <->
        exists de, 9 <= length r /\ nth_error r 3 = Some de
                   /\ ~ no_compound (improve_german de)).
Proof.
  intros first second. unfold second, first.
  rewrite (proj2 (process_csv_output header rows)).
  destruct (process_csv_counters header (map emitted rows)) as (A & B & C).
  destruct (process_csv_counters header rows) as (A' & _ & _).
  rewrite A, B, C, A'.
  split; [apply filter_map_ext; intros r; apply emitted_again|].
  split.
  { rewrite (filter_map_ext flags_changed (fun _ => false) emitted rows).
    - clear. induction rows; simpl; auto.
    - intros r. apply emitted_again. }
  split; [apply filter_map_ext; intros r; apply emitted_again|].
  intros r. split.
  - intros Hr. destruct (Nat.lt_ge_cases (length r) 9) as [Hs|Hl].
    + destruct (long_row_short r Hs) as (_ & _ & _ & E). congruence.
    + destruct (long_row_shape r Hl) as (a&b&c&d&e&f&g&h&k&rest&->).
      exists d. split; [exact Hl|]. split; [reflexivity|].
      simpl in Hr. intros Hn. apply has_compound_iff in Hn. congruence.
  - intros (de & Hl & Hde & Hn).
    destruct (long_row_shape r Hl) as (a&b&c&d&e&f&g&h&k&rest&->).
    simpl in Hde. injection Hde as ->. simpl.
    destruct (has_compound (improve_german de)) eqn:E; [reflexivity|].
    apply has_compound_iff in E. contradiction.
Qed.

(** ** Keyword sets *)

Section KeywordSets.
Context {U : Unicode}.

Lemma check_allergen_same_elements text kws kws' :
  (forall k, In k kws <-> In k kws') ->
  check_allergen text kws = check_allergen text kws'.
Proof.
  intros Hsame.
  assert (Hiff : check_allergen text kws = 1%Z <-> check_allergen text kws' = 1%Z).
  { rewrite !check_allergen_iff.
    split; intros (k & Hk & Hm); exists k; (split; [now apply Hsame | exact Hm]). }
  destruct (check_allergen_cases text kws) as [E|E];
    destruct (check_allergen_cases text kws') as [E'|E']; try congruence.
  - apply Hiff in E. congruence.
  - apply Hiff in E'. congruence.
Qed.

(** The empty keyword: [\b\b] is found wherever a word starts or ends. *)
Lemma search_empty_word t : forall pw,
  search_from (re_word N.eqb [[]]) pw t = pw || existsb is_word t.
Proof.
  induction t as [|c t IH]; intros pw.
  - simpl. unfold re_word, boundary. simpl. destruct pw; reflexivity.
  - simpl. unfold re_word at 1. unfold boundary. simpl.
    destruct pw; destruct (is_word c) eqn:Hc; simpl; rewrite ?Hc; simpl;
      try reflexivity; rewrite IH; reflexivity.
Qed.

End KeywordSets.

(** X4.  The result of [check_allergen] depends on the keyword list only
    through the set of its elements, so duplicates (FISH_KEYWORDS lists
    two keywords twice) and order do not matter; a list put together
    from two lists gives 1 exactly when one of the two does, and the
    empty list gives 0. *)
Theorem X4_keyword_sets `{Unicode} (text : str) (kws kws' : list str) :
  ((forall k, In k kws <-> In k kws') ->
   check_allergen text kws = check_allergen text kws')
  /\ check_allergen text (nodup (list_eq_dec N.eq_dec) kws)
     = check_allergen text kws
  /\ (check_allergen text (kws ++ kws') = 1%Z <->
      check_allergen text kws = 1%Z \/ check_allergen text kws' = 1%Z)
  /\ check_allergen text [] = 0%Z.
Proof.
  split; [apply check_allergen_same_elements|].
  split; [apply check_allergen_same_elements; intros k; apply nodup_In|].
  split; [|destruct text; reflexivity].
  rewrite !check_allergen_iff. split.
  - intros (k & Hk & Hm). apply in_app_or in Hk.
    destruct Hk as [Hk|Hk]; [left | right]; now exists k.
  - intros [(k & Hk & Hm)|(k & Hk & Hm)]; exists k;
      (split; [apply in_or_app; auto | exact Hm]).
Qed.

Lemma X4_keyword_sets_witness :
  check_allergen (u "Izgara Levrek") (map u ["levrek"; "ton"; "levrek"]%string)
  = check_allergen (u "Izgara Levrek") (map u ["ton"; "levrek"]%string).
Proof.
  apply (proj1 (X4_keyword_sets (u "Izgara Levrek")
                  (map u ["levrek"; "ton"; "levrek"]%string)
                  (map u ["ton"; "levrek"]%string))).
  intros k. simpl. tauto.
Defined.

(** X5.  An empty keyword in a keyword list makes [check_allergen] flag
    every subject whose normalized form holds a letter, a digit or an
    underscore: its pattern is two word boundaries in a row. *)
Theorem X5_empty_keyword `{Unicode} (text : str) (kws : list str) :
  check_allergen text ([] :: kws)
  = if existsb is_word (normalize_turkish text) then 1%Z
    else check_allergen text kws.
Proof.
  destruct text as [|c text]; [reflexivity|].
  unfold check_allergen.
  change (check_keywords (normalize_turkish (c :: text)) ([] :: kws))
    with (if re_search (re_word N.eqb [[]]) (normalize_turkish (c :: text))
          then 1%Z
          else check_keywords (normalize_turkish (c :: text)) kws).
  unfold re_search. now rewrite search_empty_word.
Qed.

(** ** Normal forms of the cleanup functions *)

Section NormalForms.
Context {U : Unicode}.

Lemma rstrip_fixed s : hd_space (rev s) = false -> rstrip s = s.
Proof.
  intros H. unfold rstrip. rewrite lstrip_fixed by assumption.
  apply rev_involutive.
Qed.

Lemma strip_trimmed s : trimmed (strip s).
Proof.
  split.
  - apply rstrip_hd, lstrip_hd.
  - unfold strip, rstrip. rewrite rev_involutive. apply lstrip_hd.
Qed.

Lemma strip_fixed s : trimmed s -> strip s = s.
Proof.
  intros [H1 H2]. unfold strip. rewrite lstrip_fixed by assumption.
  now apply rstrip_fixed.
Qed.

Lemma filter_lstrip s : filter not_space (lstrip s) = filter not_space s.
Proof.
  induction s as [|c s IH]; [reflexivity|].
  simpl lstrip. destruct (is_space c) eqn:Hc; [|reflexivity].
  simpl. unfold not_space at 2. now rewrite Hc.
Qed.

Lemma filter_strip s : filter not_space (strip s) = filter not_space s.
Proof.
  unfold strip, rstrip.
  rewrite filter_rev, filter_lstrip, <- filter_rev, rev_involutive.
  apply filter_lstrip.
Qed.

Lemma filter_spaces w : forallb is_space w = true -> filter not_space w = [].
Proof.
  induction w as [|c w IH]; [reflexivity|].
  simpl. intros H. apply andb_true_iff in H. destruct H as [Hc Hw].
  unfold not_space at 1. rewrite Hc. simpl. now apply IH.
Qed.

Lemma filter_none_spaces w : filter not_space w = [] -> forallb is_space w = true.
Proof.
  induction w as [|c w IH]; [reflexivity|].
  simpl. unfold not_space at 1. destruct (is_space c); [exact IH | discriminate].
Qed.

Lemma filter_collapse s : filter not_space (collapse s) = filter not_space s.
Proof.
  unfold collapse, re_sub. generalize false. intros pw. revert s pw.
  apply (@sub_from_ind U re_spaces [32%N]
    (fun _ s out => filter not_space out = filter not_space s)).
  - reflexivity.
  - intros pw c s' _ IH. simpl. now rewrite IH.
  - intros pw c s' n Hm w b IH.
    apply re_spaces_some in Hm. destruct Hm as [Hn _].
    destruct (span_space_split (c :: s')) as [Hw _].
    rewrite <- Hn in Hw. fold w in Hw.
    rewrite <- (firstn_skipn (S n) (c :: s')). fold w b.
    rewrite !filter_app, (filter_spaces w Hw), IH. reflexivity.
Qed.

Lemma improve_russian_length s : length (improve_russian s) <= length s.
Proof.
  rewrite improve_russian_eq.
  eapply Nat.le_trans; [apply strip_length | apply collapse_length].
Qed.

Lemma improve_german_length s : length (improve_german s) <= length s.
Proof.
  rewrite improve_german_eq. unfold german.
  eapply Nat.le_trans; [apply strip_length|].
  eapply Nat.le_trans; [apply collapse_length|].
  eapply Nat.le_trans; [apply drop_length|].
  eapply Nat.le_trans; [apply drop_length|].
  eapply Nat.le_trans; [apply replace_length; simpl; lia|].
  eapply Nat.le_trans; [apply replace_length; simpl; lia|].
  apply replace_length; simpl; lia.
Qed.

Lemma exact_eqb_iff a t : exact N.eqb a t = true <-> a = t.
Proof.
  unfold exact. rewrite andb_true_iff, lit_prefix_eqb_iff, Nat.eqb_eq. split.
  - intros [[b ->] Hl]. rewrite length_app in Hl.
    destruct b; [now rewrite app_nil_r | simpl in Hl; lia].
  - intros ->. split; [exists []; now rewrite app_nil_r | reflexivity].
Qed.

Lemma drop_fixed_iff a t :
  a <> [] -> (tok_sub N.eqb [a] [] t = t <-> t <> a).
Proof.
  intros Ha. unfold tok_sub, tok_match. simpl. rewrite orb_false_r.
  destruct (exact N.eqb a t) eqn:E.
  - apply exact_eqb_iff in E. subst t. split; [congruence | contradiction].
  - split; [|reflexivity]. intros _ ->.
    assert (exact N.eqb a a = true) by now apply exact_eqb_iff. congruence.
Qed.

Lemma all_tok_and (P Q : str -> Prop) s : forall cur,
  all_tok P cur s -> all_tok Q cur s -> all_tok (fun t => P t /\ Q t) cur s.
Proof.
  induction s as [|c s IH]; intros cur HP HQ; simpl in *; [tauto|].
  destruct (is_word c); [now apply IH|].
  destruct HP, HQ. split; [tauto | now apply IH].
Qed.

Lemma german_no_stil s : no_stil_word (improve_german s).
Proof.
  destruct (german_words s) as [W1 W2]. unfold no_stil_word.
  apply all_tok_and.
  - apply (all_tok_weaken (fun t => drop_STIL t = t)); [|exact W1].
    intros t. apply drop_fixed_iff. discriminate.
  - apply (all_tok_weaken (fun t => drop_Stil t = t)); [|exact W2].
    intros t. apply drop_fixed_iff. discriminate.
Qed.

Lemma german_clean_fixed s :
  no_compound s -> no_stil_word s -> spaced s -> trimmed s ->
  improve_german s = s.
Proof.
  intros (H1 & H2 & H3) Hw Hs Ht.
  rewrite improve_german_eq. unfold german.
  rewrite (replace_absent _ _ _ H1), (replace_absent _ _ _ H2),
          (replace_absent _ _ _ H3).
  rewrite (re_sub_is_tok N.eqb [u "STIL"] STIL_wordy).
  fold drop_STIL. rewrite (sub_tok_fixed drop_STIL s []); simpl app.
  - rewrite (re_sub_is_tok N.eqb [u "Stil"] Stil_wordy).
    fold drop_Stil. rewrite (sub_tok_fixed drop_Stil s []); simpl app.
    + rewrite spaced_collapse by assumption. now apply strip_fixed.
    + apply (all_tok_weaken (fun t => t <> u "STIL" /\ t <> u "Stil")); [|exact Hw].
      intros t [_ Ht']. apply drop_fixed_iff; [discriminate | exact Ht'].
  - apply (all_tok_weaken (fun t => t <> u "STIL" /\ t <> u "Stil")); [|exact Hw].
    intros t [Ht' _]. apply drop_fixed_iff; [discriminate | exact Ht'].
Qed.

Lemma english_no_phrase s :
  contains (u "SAUTEED OF SHRIMP") (improve_english s) = false
  /\ contains (u "ADANA STYLE KEBAP") (improve_english s) = false
  /\ contains (u "ADANA STIL KEBAP") (improve_english s) = false.
Proof.
  rewrite improve_english_eq. unfold english.
  set (p1 := u "SAUTEED OF SHRIMP"). set (p2 := u "ADANA STYLE KEBAP").
  set (p3 := u "ADANA STIL KEBAP").
  repeat split.
  - do 2 (apply sub_avoids; [reflexivity|]).
    unfold replace. do 2 (apply sub_avoids; [reflexivity|]).
    now apply replace_removes.
  - do 2 (apply sub_avoids; [reflexivity|]).
    unfold replace at 1. apply sub_avoids; [reflexivity|].
    now apply replace_removes.
  - do 2 (apply sub_avoids; [reflexivity|]). now apply replace_removes.
Qed.

Lemma english_no_word s :
  all_tok (fun t => tok_match ci_eq style_alts t = false) [] (improve_english s)
  /\ all_tok (fun t => tok_match ci_eq kebap_alts t = false) [] (improve_english s).
Proof.
  rewrite improve_english_eq. unfold english.
  rewrite (re_sub_is_tok ci_eq style_alts style_wordy),
          (re_sub_is_tok ci_eq kebap_alts kebap_wordy).
  split.
  - apply (all_tok_sub _ (fun t => tok_match ci_eq style_alts t = false));
      [| apply kebap_word_word | reflexivity |].
    + intros t _ Ht. unfold kebap_word, tok_sub.
      destruct (tok_match ci_eq kebap_alts t); [reflexivity | exact Ht].
    + apply (all_tok_sub _ (fun _ => True));
        [| apply style_word_word | reflexivity | apply all_tok_any].
      intros t _ _. unfold style_word, tok_sub.
      destruct (tok_match ci_eq style_alts t) eqn:E; [reflexivity | exact E].
  - apply (all_tok_sub _ (fun _ => True));
      [| apply kebap_word_word | reflexivity | apply all_tok_any].
    intros t _ _. unfold kebap_word, tok_sub.
    destruct (tok_match ci_eq kebap_alts t) eqn:E; [reflexivity | exact E].
Qed.

Lemma english_clean_fixed s : english_clean s -> improve_english s = s.
Proof.
  intros (H1 & H2 & H3 & W1 & W2).
  rewrite improve_english_eq. unfold english.
  rewrite (replace_absent _ _ _ H1), (replace_absent _ _ _ H2),
          (replace_absent _ _ _ H3).
  rewrite (re_sub_is_tok ci_eq style_alts style_wordy).
  fold style_word. rewrite (sub_tok_fixed style_word s []); simpl app.
  - rewrite (re_sub_is_tok ci_eq kebap_alts kebap_wordy).
    fold kebap_word. rewrite (sub_tok_fixed kebap_word s []); [reflexivity|].
    apply (all_tok_weaken (fun t => tok_match ci_eq kebap_alts t = false));
      [|exact W2].
    intros t Ht. unfold kebap_word, tok_sub. now rewrite Ht.
  - apply (all_tok_weaken (fun t => tok_match ci_eq style_alts t = false));
      [|exact W1].
    intros t Ht. unfold style_word, tok_sub. now rewrite Ht.
Qed.

End NormalForms.

(** X6.  What [improve_english] returns holds none of the three known
    phrases and no word matching STIL, USULÜ, USULU or KEBAP in any
    casing; and the strings [improve_english] leaves as they are are
    exactly the strings of that form. *)
Theorem X6_english_normal_form `{Unicode} (s : str) :
  english_clean (improve_english s)
  /\ (improve_english s = s <-> english_clean s).
Proof.
  assert (Hc : english_clean (improve_english s)).
  { destruct (english_no_phrase s) as (A & B & C).
    destruct (english_no_word s) as (D & E). repeat split; assumption. }
  split; [exact Hc|]. split.
  - intros E. now rewrite E in Hc.
  - apply english_clean_fixed.
Qed.

Lemma improve_russian_normal `{Unicode} (s : str) :
  spaced (improve_russian s) /\ trimmed (improve_russian s).
Proof.
  rewrite improve_russian_eq. split.
  - apply spaced_strip, collapse_spaced.
  - apply strip_trimmed.
Qed.

(** X7.  What [improve_russian] returns is single-spaced (every
    whitespace character is U+0020 and is followed by a non-whitespace
    character) and neither starts nor ends with whitespace; and the
    strings [improve_russian] leaves as they are are exactly the strings
    of that form. *)
Theorem X7_russian_normal_form `{Unicode} (s : str) :
  spaced (improve_russian s) /\ trimmed (improve_russian s)
  /\ (improve_russian s = s <-> spaced s /\ trimmed s).
Proof.
  pose proof (improve_russian_normal s) as Hn.
  split; [apply Hn|]. split; [apply Hn|]. split.
  - intros E. now rewrite E in Hn.
  - intros [Hs Ht]. rewrite improve_russian_eq.
    rewrite spaced_collapse by assumption. now apply strip_fixed.
Qed.

(** X8.  [improve_russian] touches whitespace only: the non-whitespace
    characters of the result are those of the argument, in the same
    order; the result is never longer than the argument, and it is empty
    exactly when the argument holds nothing but whitespace. *)
Theorem X8_russian_content `{Unicode} (s : str) :
  filter not_space (improve_russian s) = filter not_space s
  /\ length (improve_russian s) <= length s
  /\ (improve_russian s = [] <-> forallb is_space s = true).
Proof.
  assert (Hf : filter not_space (improve_russian s) = filter not_space s).
  { rewrite improve_russian_eq, filter_strip. apply filter_collapse. }
  split; [exact Hf|]. split; [apply improve_russian_length|]. split.
  - intros E. rewrite E in Hf. symmetry in Hf. now apply filter_none_spaces.
  - intros Hs. apply filter_spaces in Hs. rewrite <- Hf in Hs.
    apply filter_none_spaces in Hs.
    destruct (improve_russian_normal s) as (_ & [Hh _]).
    destruct (improve_russian s) as [|c t]; [reflexivity|].
    simpl in Hs, Hh. rewrite Hh in Hs. discriminate.
Qed.

(** X9.  What [improve_german] returns is single-spaced, neither starts
    nor ends with whitespace, holds no whole word STIL or Stil and is
    never longer than the argument; and the strings [improve_german]
    leaves as they are are exactly the strings of that form that hold
    none of the three compound patterns. *)
Theorem X9_german_normal_form `{Unicode} (s : str) :
  spaced (improve_german s) /\ trimmed (improve_german s)
  /\ no_stil_word (improve_german s)
  /\ length (improve_german s) <= length s
  /\ (improve_german s = s <->
      no_compound s /\ no_stil_word s /\ spaced s /\ trimmed s).
Proof.
  assert (Hn : spaced (improve_german s) /\ trimmed (improve_german s)
               /\ no_stil_word (improve_german s)).
  { split; [|split; [|apply german_no_stil]]; rewrite improve_german_eq.
    - apply spaced_strip, collapse_spaced.
    - apply strip_trimmed. }
  destruct Hn as (Hs & Ht & Hw).
  repeat (split; [assumption|]).
  split; [apply improve_german_length|]. split.
  - intros E. split; [|rewrite E in Hs, Ht, Hw; auto].
    rewrite <- E. apply improve_german_idem_iff. now rewrite E.
  - intros (A & B & C & D). now apply german_clean_fixed.
Qed.

(** ** The further properties at concrete inputs *)

Lemma X2_counters_witness :
  9 <= length (map u ["5"; "Balık"; "Fish"; "Fisch"; "Рыба";
                      "0"; "0"; "0"; "0"]%string)
  /\ firstn 4 (skipn 5 (emitted (map u ["5"; "Balık"; "Fish"; "Fisch"; "Рыба";
                                        "0"; "0"; "0"; "0"]%string)))
     <> firstn 4 (skipn 5 (map u ["5"; "Balık"; "Fish"; "Fisch"; "Рыба";
                                  "0"; "0"; "0"; "0"]%string)).
Proof.
  apply (proj1 (proj2 (proj2 (proj2 (proj2 (X2_counters [] [])))))).
  vm_compute. reflexivity.
Defined.

Lemma X3_second_run_witness :
  exists de,
    9 <= length (map u ["5"; "Çorba"; "Soup"; "STILSTILSUPPE"; "Суп";
                        "0"; "0"; "0"; "0"]%string)
    /\ nth_error (map u ["5"; "Çorba"; "Soup"; "STILSTILSUPPE"; "Суп";
                         "0"; "0"; "0"; "0"]%string) 3 = Some de
    /\ ~ no_compound (improve_german de).
Proof.
  apply (proj2 (proj2 (proj2 (X3_second_run [] [])))).
  vm_compute. reflexivity.
Defined.

Lemma X6_english_normal_form_witness :
  improve_english (u "Fish Balls") = u "Fish Balls".
Proof.
  apply (proj2 (X6_english_normal_form (u "Fish Balls"))).
  repeat split; vm_compute; auto.
Defined.

Lemma X7_russian_normal_form_witness :
  improve_russian (u "Рыбные шарики") = u "Рыбные шарики".
Proof.
  apply (proj2 (proj2 (X7_russian_normal_form (u "Рыбные шарики")))).
  split; [|split; reflexivity].
  vm_compute. repeat split; try discriminate; auto.
Defined.

Lemma X8_russian_content_witness : improve_russian [9; 32; 160; 10]%N = [].
Proof.
  apply (proj2 (proj2 (X8_russian_content [9; 32; 160; 10]%N))).
  reflexivity.
Defined.

Lemma X9_german_normal_form_witness :
  improve_german (u "Fisch Suppe") = u "Fisch Suppe".
Proof.
  apply (proj2 (proj2 (proj2 (proj2 (X9_german_normal_form (u "Fisch Suppe")))))).
  split; [repeat split; vm_compute; reflexivity|].
  split; [vm_compute; repeat split; intros E; discriminate E|].
  split; [|split; reflexivity].
  vm_compute. repeat split; try discriminate; auto.
Defined.
